(** * Crawl4AI structured-extraction service: a shallow embedding

    The development follows [server/crawl4ai_service/main.py]: the text
    chunker, the parser of model output, the row deduplicator and the
    [/extract] handler that drives them.  Python values are modelled as
    the code has them: [str] as a list of Unicode code points, [int] as
    [Z], a [dict] as an association list in insertion order, exceptions as
    an explicit result type, and the effectful collaborators (HTTP fetch,
    HTML cleaning, the chat completion client) as state-passing functions
    over an abstract world. *)

From Stdlib Require Import String Ascii.
From Stdlib Require Import List ZArith NArith Lia Bool.
From Stdlib Require Import QArith Qround Permutation DecimalString.
Import ListNotations.
Open Scope Z_scope.
Set Warnings "-register-all".

(** ** Python strings *)

(** A Python [str] is a sequence of code points. *)
Definition char := N.
Definition text := list char.

(** Literals: an ASCII Rocq string read as code points. *)
Definition str (s : string) : text := map N_of_ascii (list_ascii_of_string s).

Definition len {A : Type} (l : list A) : Z := Z.of_nat (length l).

(** [l[a:b]] with Python's treatment of negative and out-of-range bounds. *)
Definition clamp_index (n i : Z) : Z :=
  if i <? 0 then Z.max 0 (i + n) else Z.min i n.

Definition py_slice {A : Type} (l : list A) (a b : Z) : list A :=
  let n := len l in
  let lo := clamp_index n a in
  let hi := clamp_index n b in
  firstn (Z.to_nat (hi - lo)) (skipn (Z.to_nat lo) l).

(** Truthiness of a [str] and of a [list]: non-empty. *)
Definition truthy {A : Type} (l : list A) : bool :=
  match l with [] => false | _ :: _ => true end.

(** ** TextChunker: [chunk_text] (main.py, lines 77-90) *)

Module Chunker.

(** The [while start < n] loop.  One unit of fuel is one evaluation of the
    loop test; [None] means the fuel ran out before the loop ended. *)
Fixpoint chunk_loop (fuel : nat) (t : text) (window step start : Z)
         (chunks : list text) : option (list text) :=
  match fuel with
  | O => None
  | S fuel' =>
      let n := len t in
      if start <? n then
        let end_ := Z.min n (start + window) in
        let chunks := chunks ++ [py_slice t start end_] in
        if end_ >=? n then Some chunks
        else chunk_loop fuel' t window step (start + step) chunks
      else Some chunks
  end.

Definition chunk_text_fuel (fuel : nat) (t : text) (window overlap : Z)
  : option (list text) :=
  if window <=? 0 then Some [t]
  else chunk_loop fuel t window (Z.max 1 (window - overlap)) 0 [].

(** The function itself, run with as many loop tests as the text has
    characters plus one; [chunk_text_fuel_enough] below shows that this
    always suffices. *)
Definition chunk_text (t : text) (window overlap : Z) : list text :=
  match chunk_text_fuel (S (length t)) t window overlap with
  | Some chunks => chunks
  | None => []
  end.

(** Start position of the [i]-th chunk, and the chunk cut there. *)
Definition chunk_starts (step : Z) (k : nat) : list Z :=
  map (fun i => Z.of_nat i * step) (seq 0 k).

Definition chunk_at (t : text) (window start : Z) : text :=
  py_slice t start (Z.min (len t) (start + window)).

(** [k] chunks cut every [step] characters from [start] lie in [t] this
    way: there is none only if [start] is past the end, every chunk but
    the last stops short of the end, and the last one reaches it. *)
Definition layout (t : text) (window step start : Z) (k : nat) : Prop :=
  (k = 0%nat -> len t <= start)
  /\ (k <> 0%nat ->
      start < len t /\ len t <= start + (Z.of_nat k - 1) * step + window)
  /\ (forall i : nat, (S i < k)%nat ->
      start + Z.of_nat i * step + window < len t).

(** The non-overlapping portion of every chunk: its first [step]
    characters, and the whole of the last chunk. *)
Fixpoint nonoverlapping (step : Z) (chunks : list text) : text :=
  match chunks with
  | [] => []
  | [c] => c
  | c :: rest => py_slice c 0 step ++ nonoverlapping step rest
  end.

End Chunker.

(** ** Python values and exceptions *)

(** Exceptions derived from [Exception], by class name. *)
Inductive exn : Type :=
| JSONDecodeError
| KeyError
| TypeError
| OtherError (name : string).

Inductive result (A : Type) : Type :=
| Ok (a : A)
| Raise (e : exn).
Arguments Ok {A} a.
Arguments Raise {A} e.

Definition bind {A B : Type} (r : result A) (k : A -> result B) : result B :=
  match r with
  | Ok a => k a
  | Raise e => Raise e
  end.

Notation "x <- r ;; k" := (bind r (fun x => k))
  (at level 61, r at next level, right associativity).

(** Python floats are IEEE doubles; the development keeps them abstract and
    only names the two conversions the code goes through: [float(lexeme)]
    in the JSON decoder and the encoder's float formatting. *)
Class PyFloat : Type := {
  float : Type;
  float_of_text : text -> float;
  float_repr : float -> text
}.

Section Values.
Context {F : PyFloat}.

(** What [json.loads] can return. A [dict] keeps its items in insertion
    order, with one item per key. *)
Inductive value : Type :=
| VNone
| VBool (b : bool)
| VInt (z : Z)
| VFloat (f : float)
| VStr (s : text)
| VList (items : list value)
| VDict (items : list (text * value)).

Definition dict := list (text * value).

Definition text_eqb (a b : text) : bool :=
  if list_eq_dec N.eq_dec a b then true else false.

Fixpoint dict_get (d : dict) (k : text) : option value :=
  match d with
  | [] => None
  | (k', v) :: d' => if text_eqb k' k then Some v else dict_get d' k
  end.

(** [k in d] *)
Definition dict_contains (d : dict) (k : text) : bool :=
  match dict_get d k with Some _ => true | None => false end.

(** [d[k]] *)
Definition dict_getitem (d : dict) (k : text) : result value :=
  match dict_get d k with
  | Some v => Ok v
  | None => Raise KeyError
  end.

(** [d[k] = v]: an existing key keeps its place. *)
Fixpoint dict_setitem (d : dict) (k : text) (v : value) : dict :=
  match d with
  | [] => [(k, v)]
  | (k', v') :: d' =>
      if text_eqb k' k then (k', v) :: d' else (k', v') :: dict_setitem d' k v
  end.

Definition dict_keys (d : dict) : list text := map fst d.

(** [isinstance(x, list)] and [isinstance(x, dict)] *)
Definition is_list (x : value) : bool :=
  match x with VList _ => true | _ => false end.

Definition is_dict (x : value) : bool :=
  match x with VDict _ => true | _ => false end.

(** The items a [for] over [x] visits; ints, floats, bools and [None] are
    not iterable. *)
Definition iterate (x : value) : result (list value) :=
  match x with
  | VList items => Ok items
  | VDict d => Ok (map VStr (dict_keys d))
  | VStr s => Ok (map (fun c => VStr [c]) s)
  | _ => Raise TypeError
  end.

(** [[x for x in items if isinstance(x, dict)]] *)
Fixpoint only_dicts (items : list value) : list dict :=
  match items with
  | [] => []
  | VDict d :: rest => d :: only_dicts rest
  | _ :: rest => only_dicts rest
  end.

End Values.

(** ASCII characters by name. *)
Definition ch (s : string) : char :=
  match s with
  | String a _ => N_of_ascii a
  | EmptyString => 0%N
  end.

Definition dquote : char := 34%N.
Definition backslash : char := 92%N.
Definition newline : char := 10%N.

(** The rest of [s] after the prefix [p], if [s] starts with [p]. *)
Fixpoint starts_with (p s : text) : option text :=
  match p, s with
  | [], _ => Some s
  | a :: p', b :: s' => if (a =? b)%N then starts_with p' s' else None
  | _ :: _, [] => None
  end.

(** The text before the first occurrence of [p] in [s] and the text after
    that occurrence. *)
Fixpoint find_sub (p s : text) : option (text * text) :=
  match starts_with p s with
  | Some rest => Some ([], rest)
  | None =>
      match s with
      | [] => None
      | c :: r =>
          match find_sub p r with
          | Some (before, rest) => Some (c :: before, rest)
          | None => None
          end
      end
  end.

Fixpoint drop_while (p : char -> bool) (s : text) : text :=
  match s with
  | [] => []
  | c :: r => if p c then drop_while p r else s
  end.

(** ** ResultParser: the three patterns of [extract_json_candidates]
       (main.py, lines 110-119) *)

Module Patterns.

(** [\s] of a [str] pattern: the code points of [str.isspace]. *)
Definition is_space (c : char) : bool :=
  ((9 <=? c) && (c <=? 13) || (28 <=? c) && (c <=? 32)
   || (c =? 133) || (c =? 160) || (c =? 5760)
   || (8192 <=? c) && (c <=? 8202)
   || (c =? 8232) || (c =? 8233) || (c =? 8239) || (c =? 8287)
   || (c =? 12288))%N.

(** A lower-case ASCII letter of a pattern under [re.IGNORECASE]: the
    letter, its capital, and the non-ASCII code points the [re] module
    folds onto it (dotted and dotless i, long s, the Kelvin sign). *)
Definition ignorecase_eq (p c : char) : bool :=
  ((c =? p)
   || (97 <=? p) && (p <=? 122) && (c =? p - 32)
   || (p =? 105) && ((c =? 304) || (c =? 305))
   || (p =? 115) && (c =? 383)
   || (p =? 107) && (c =? 8490))%N.

Fixpoint starts_with_ignorecase (p s : text) : option text :=
  match p, s with
  | [], _ => Some s
  | a :: p', b :: s' =>
      if ignorecase_eq a b then starts_with_ignorecase p' s' else None
  | _ :: _, [] => None
  end.

(** [re.findall] for a pattern that never matches the empty string:
    [match_at s] tells whether the pattern matches at the head of [s], what
    [findall] reports for that match and how many characters the match
    spans; the scan resumes after the match, or one character further
    when there is none.  [skip] counts the characters still inside the
    last match. *)
Fixpoint findall (match_at : text -> option (text * nat)) (s : text)
         (skip : nat) : list text :=
  match s with
  | [] => []
  | _ :: r =>
      match skip with
      | S k => findall match_at r k
      | O =>
          match match_at s with
          | Some (found, span) => found :: findall match_at r (pred span)
          | None => findall match_at r 0
          end
      end
  end.

Definition backticks : text := str "```".

(** [```json\s*(.*?)```] with [DOTALL | IGNORECASE]: after the opening
    fence [\s*] takes all the white space there is (no closing fence can
    start inside it), then the group runs to the first closing fence.
    [findall] reports the group. *)
Definition fence_at (s : text) : option (text * nat) :=
  match starts_with_ignorecase (str "```json") s with
  | None => None
  | Some r =>
      let body := drop_while is_space r in
      match find_sub backticks body with
      | Some (group, _) =>
          Some (group,
                (7 + (length r - length body) + length group + 3)%nat)
      | None => None
      end
  end.

(** [open(?:.|\n)*?close] with [DOTALL]: from an opening character to the
    first closing one after it. [findall] reports the whole match. *)
Definition delimited_at (open_ close_ : char) (s : text)
  : option (text * nat) :=
  match s with
  | [] => None
  | c :: r =>
      if (c =? open_)%N then
        match find_sub [close_] r with
        | Some (inner, _) =>
            Some (c :: inner ++ [close_], (length inner + 2)%nat)
        | None => None
        end
      else None
  end.

Definition array_at : text -> option (text * nat) :=
  delimited_at (ch "[") (ch "]").

Definition object_at : text -> option (text * nat) :=
  delimited_at (ch "{") (ch "}").

End Patterns.

Definition extract_json_candidates (t : text) : list text :=
  let blocks := [] in
  let code_blocks := Patterns.findall Patterns.fence_at t 0 in
  let blocks := blocks ++ code_blocks in
  let arrays := Patterns.findall Patterns.array_at t 0 in
  let objects := Patterns.findall Patterns.object_at t 0 in
  let blocks := blocks ++ arrays in
  let blocks := blocks ++ objects in
  blocks.

(** ** ResultParser: [safe_parse_rows] (main.py, lines 122-134) and the
       parsing steps of [call_openai_extract] (lines 179-189) *)

Section Parser.
Context {F : PyFloat}.

(** [json.loads]: the value decoded, or the exception raised. *)
Variable json_loads : text -> result value.

Definition rows_key : text := str "rows".

(** The body of the [try]: [Ok (Some rows)] is a [return rows] inside it,
    [Ok None] is control reaching its end. *)
Definition safe_parse_rows_try (t : text) : result (option (list dict)) :=
  parsed <- json_loads t ;;
  match parsed with
  | VList items => Ok (Some (only_dicts items))
  | VDict d =>
      if dict_contains d rows_key then
        rows <- dict_getitem d rows_key ;;
        if is_list rows then
          rows <- dict_getitem d rows_key ;;
          items <- iterate rows ;;
          Ok (Some (only_dicts items))
        else Ok None
      else Ok None
  | _ => Ok None
  end.

Definition safe_parse_rows (t : text) : result (list dict) :=
  match safe_parse_rows_try t with
  | Ok (Some rows) => Ok rows
  | Ok None => Ok []
  | Raise _ => Ok []   (* except Exception: pass *)
  end.

(** [for cand in ...: rows = safe_parse_rows(cand); if rows: return rows]
    and the [return []] after the loop. *)
Fixpoint first_rows (candidates : list text) : result (list dict) :=
  match candidates with
  | [] => Ok []
  | cand :: rest =>
      rows <- safe_parse_rows cand ;;
      if truthy rows then Ok rows else first_rows rest
  end.

(** Lines 179-189: the direct parse, then the candidates. *)
Definition parse_rows (t : text) : result (list dict) :=
  rows <- safe_parse_rows t ;;
  if truthy rows then Ok rows
  else first_rows (extract_json_candidates t).

End Parser.

(** ** The JSON decoder behind [json.loads]

    [json.loads] belongs to Python's standard library, not to the service.
    The parser above is stated over any decoder; this one, written after
    the scanner of the [json] module (strict mode, default hooks), serves
    to run the parser on concrete model outputs.  It reads the remaining
    input as a suffix and leaves the interpreter's resource limits
    (recursion depth, digits per integer) out. *)

Module JsonDecoder.
Section Decoder.
Context {F : PyFloat}.

(** The decoder's own white space: space, tab, line feed, carriage
    return. *)
Definition is_ws (c : char) : bool :=
  ((c =? 32) || (c =? 9) || (c =? 10) || (c =? 13))%N.

Definition skip_ws (s : text) : text := drop_while is_ws s.

Definition is_digit (c : char) : bool := ((48 <=? c) && (c <=? 57))%N.

Definition hex_digit (c : char) : option N :=
  (if (48 <=? c) && (c <=? 57) then Some (c - 48)
   else if (97 <=? c) && (c <=? 102) then Some (c - 87)
   else if (65 <=? c) && (c <=? 70) then Some (c - 55)
   else None)%N.

(** Four hexadecimal digits at the head of [s]. *)
Definition hex4 (s : text) : option (N * text) :=
  match s with
  | a :: b :: c :: d :: r =>
      match hex_digit a, hex_digit b, hex_digit c, hex_digit d with
      | Some x, Some y, Some z, Some w =>
          Some (((x * 16 + y) * 16 + z) * 16 + w, r)%N
      | _, _, _, _ => None
      end
  | _ => None
  end.

Definition simple_escape (c : char) : option char :=
  (if c =? dquote then Some dquote
   else if c =? backslash then Some backslash
   else if c =? 47 then Some 47           (* / *)
   else if c =? 98 then Some 8            (* b *)
   else if c =? 102 then Some 12          (* f *)
   else if c =? 110 then Some 10          (* n *)
   else if c =? 114 then Some 13          (* r *)
   else if c =? 116 then Some 9           (* t *)
   else None)%N.

Definition is_high_surrogate (c : N) : bool :=
  ((55296 <=? c) && (c <=? 56319))%N.
Definition is_low_surrogate (c : N) : bool :=
  ((56320 <=? c) && (c <=? 57343))%N.
Definition join_surrogates (hi lo : N) : N :=
  (65536 + ((hi - 55296) * 1024 + (lo - 56320)))%N.

(** A [\u] escape, the [\u] already read: the code point and the rest.
    A high surrogate followed by an escaped low surrogate is one code
    point; followed by [\u] and something that is not four hexadecimal
    digits it is an error. *)
Definition unicode_escape (s : text) : option (char * text) :=
  match hex4 s with
  | None => None
  | Some (c, r) =>
      if is_high_surrogate c then
        match starts_with [backslash; ch "u"] r with
        | Some r2 =>
            match hex4 r2 with
            | Some (c2, r3) =>
                if is_low_surrogate c2 then Some (join_surrogates c c2, r3)
                else Some (c, r)
            | None => match r2 with
                      | _ :: _ :: _ :: _ :: _ :: _ => None
                      | _ => Some (c, r)
                      end
            end
        | None => Some (c, r)
        end
      else Some (c, r)
  end.

(** The string scanner, after the opening quote: the decoded string and
    the input after the closing quote.  Every round consumes input, so
    fuel equal to the length of the input never runs out first. *)
Fixpoint scanstring_loop (fuel : nat) (s : text) (acc : text)
  : option (text * text) :=
  match fuel with
  | O => None
  | S fuel' =>
      match s with
      | [] => None
      | c :: r =>
          if (c =? dquote)%N then Some (acc, r)
          else if (c =? backslash)%N then
            match r with
            | [] => None
            | e :: r' =>
                if (e =? ch "u")%N then
                  match unicode_escape r' with
                  | Some (u, r'') => scanstring_loop fuel' r'' (acc ++ [u])
                  | None => None
                  end
                else
                  match simple_escape e with
                  | Some x => scanstring_loop fuel' r' (acc ++ [x])
                  | None => None
                  end
            end
          else if (c <=? 31)%N then None
          else scanstring_loop fuel' r (acc ++ [c])
      end
  end.

Definition scanstring (s : text) : option (text * text) :=
  scanstring_loop (length s) s [].

Fixpoint take_while (p : char -> bool) (s : text) : text :=
  match s with
  | [] => []
  | c :: r => if p c then c :: take_while p r else []
  end.

Fixpoint digits_value (acc : Z) (ds : text) : Z :=
  match ds with
  | [] => acc
  | d :: r => digits_value (acc * 10 + (Z.of_N d - 48)) r
  end.

(** A number at the head of [s]: an optional minus sign and either [0] or
    a digit from 1 to 9 followed by digits; then, optionally, a point and
    at least one digit; then, optionally, [e] or [E], an optional sign
    and at least one digit. *)
Definition integer_part (s : text) : option (text * text) :=
  let (sign, r) :=
    match s with
    | c :: r' => if (c =? ch "-")%N then ([c], r') else ([], s)
    | [] => ([], s)
    end in
  match r with
  | c :: r' =>
      if (c =? ch "0")%N then Some (sign ++ [c], r')
      else if is_digit c then
        let ds := take_while is_digit r in
        Some (sign ++ ds, drop_while is_digit r)
      else None
  | [] => None
  end.

Definition fraction_part (s : text) : text * text :=
  match s with
  | c :: d :: _ =>
      if (c =? ch ".")%N && is_digit d then
        let r := tl s in
        (c :: take_while is_digit r, drop_while is_digit r)
      else ([], s)
  | _ => ([], s)
  end.

Definition exponent_part (s : text) : text * text :=
  match s with
  | c :: r =>
      if (c =? ch "e")%N || (c =? ch "E")%N then
        let (sign, r') :=
          match r with
          | x :: r'' =>
              if (x =? ch "-")%N || (x =? ch "+")%N then ([x], r'')
              else ([], r)
          | [] => ([], r)
          end in
        match take_while is_digit r' with
        | [] => ([], s)
        | ds => (c :: sign ++ ds, drop_while is_digit r')
        end
      else ([], s)
  | [] => ([], s)
  end.

Definition int_of_lexeme (l : text) : Z :=
  match l with
  | c :: ds => if (c =? ch "-")%N then - digits_value 0 ds
               else digits_value 0 l
  | [] => 0
  end.

Definition match_number (s : text) : option (value * text) :=
  match integer_part s with
  | None => None
  | Some (int_lex, r) =>
      let (frac, r1) := fraction_part r in
      let (exp, r2) := exponent_part r1 in
      match frac ++ exp with
      | [] => Some (VInt (int_of_lexeme int_lex), r2)
      | _ => Some (VFloat (float_of_text (int_lex ++ frac ++ exp)), r2)
      end
  end.

(** [null], [true], [false], [NaN], [Infinity], [-Infinity]. *)
Definition match_constant (s : text) : option (value * text) :=
  match starts_with (str "null") s with
  | Some r => Some (VNone, r)
  | None =>
  match starts_with (str "true") s with
  | Some r => Some (VBool true, r)
  | None =>
  match starts_with (str "false") s with
  | Some r => Some (VBool false, r)
  | None =>
  match starts_with (str "NaN") s with
  | Some r => Some (VFloat (float_of_text (str "NaN")), r)
  | None =>
  match starts_with (str "Infinity") s with
  | Some r => Some (VFloat (float_of_text (str "Infinity")), r)
  | None =>
  match starts_with (str "-Infinity") s with
  | Some r => Some (VFloat (float_of_text (str "-Infinity")), r)
  | None => None
  end end end end end end.

(** The loop of the array parser, at the first character of an item. *)
Fixpoint array_loop (scan_once : text -> option (value * text))
         (fuel : nat) (s : text) (items : list value)
  : option (value * text) :=
  match fuel with
  | O => None
  | S fuel' =>
      match scan_once s with
      | None => None
      | Some (v, r) =>
          let items := items ++ [v] in
          match skip_ws r with
          | c :: r' =>
              if (c =? ch "]")%N then Some (VList items, r')
              else if (c =? ch ",")%N then
                array_loop scan_once fuel' (skip_ws r') items
              else None
          | [] => None
          end
      end
  end.

(** After the opening bracket. *)
Definition parse_array (scan_once : text -> option (value * text))
           (s : text) : option (value * text) :=
  match skip_ws s with
  | c :: r =>
      if (c =? ch "]")%N then Some (VList [], r)
      else array_loop scan_once (length s) (skip_ws s) []
  | [] => None
  end.

(** The loop of the object parser, at the quote that opens a key. *)
Fixpoint object_loop (scan_once : text -> option (value * text))
         (fuel : nat) (s : text) (pairs : dict) : option (value * text) :=
  match fuel with
  | O => None
  | S fuel' =>
      match s with
      | c :: r =>
          if (c =? dquote)%N then
            match scanstring r with
            | None => None
            | Some (key, r1) =>
                match skip_ws r1 with
                | c1 :: r2 =>
                    if (c1 =? ch ":")%N then
                      match scan_once (skip_ws r2) with
                      | None => None
                      | Some (v, r3) =>
                          let pairs := dict_setitem pairs key v in
                          match skip_ws r3 with
                          | c3 :: r4 =>
                              if (c3 =? ch "}")%N then Some (VDict pairs, r4)
                              else if (c3 =? ch ",")%N then
                                object_loop scan_once fuel' (skip_ws r4) pairs
                              else None
                          | [] => None
                          end
                      end
                    else None
                | [] => None
                end
            end
          else None
      | [] => None
      end
  end.

(** After the opening brace. *)
Definition parse_object (scan_once : text -> option (value * text))
           (s : text) : option (value * text) :=
  match skip_ws s with
  | c :: r =>
      if (c =? ch "}")%N then Some (VDict [], r)
      else object_loop scan_once (length s) (skip_ws s) []
  | [] => None
  end.

(** One JSON value at the head of [s]; [depth] bounds the nesting. *)
Fixpoint scan_once (depth : nat) (s : text) : option (value * text) :=
  match depth with
  | O => None
  | S depth' =>
      match s with
      | [] => None
      | c :: r =>
          if (c =? dquote)%N then
            match scanstring r with
            | Some (k, r') => Some (VStr k, r')
            | None => None
            end
          else if (c =? ch "{")%N then parse_object (scan_once depth') r
          else if (c =? ch "[")%N then parse_array (scan_once depth') r
          else
            match match_constant s with
            | Some found => Some found
            | None => match_number s
            end
      end
  end.

(** [json.loads(t)] for a [str]: leading white space, one value, trailing
    white space, nothing else.  A value nests at most as deep as the text
    is long. *)
Definition loads (t : text) : result value :=
  match starts_with [65279%N] t with
  | Some _ => Raise JSONDecodeError
  | None =>
      match scan_once (S (length t)) (skip_ws t) with
      | None => Raise JSONDecodeError
      | Some (v, r) =>
          match skip_ws r with
          | [] => Ok v
          | _ :: _ => Raise JSONDecodeError
          end
      end
  end.

End Decoder.
End JsonDecoder.

(** Floats kept as the text they were read from: an instance to run the
    definitions on inputs in which the value of a float plays no part. *)
Definition lexeme_float : PyFloat :=
  {| float := text; float_of_text := fun l => l; float_repr := fun l => l |}.

(** ** RowDeduplicator: [json.dumps(r, sort_keys=True)] and [dedupe_rows]
       (main.py, lines 194-203) *)

Module JsonEncoder.
Section Encoder.
Context {F : PyFloat}.

Definition hex_char (n : N) : char := (if n <? 10 then 48 + n else 87 + n)%N.

(** [\uXXXX], four lower-case hexadecimal digits. *)
Definition u_escape (c : N) : text :=
  [backslash; ch "u"; hex_char (c / 4096 mod 16); hex_char (c / 256 mod 16);
   hex_char (c / 16 mod 16); hex_char (c mod 16)]%N.

(** One character of a string under [ensure_ascii=True]. *)
Definition escape_char (c : char) : text :=
  (if c =? dquote then [backslash; dquote]
   else if c =? backslash then [backslash; backslash]
   else if c =? 10 then [backslash; ch "n"]
   else if c =? 13 then [backslash; ch "r"]
   else if c =? 9 then [backslash; ch "t"]
   else if c =? 8 then [backslash; ch "b"]
   else if c =? 12 then [backslash; ch "f"]
   else if (32 <=? c) && (c <=? 126) then [c]
   else if c <? 65536 then u_escape c
   else
     let v := c - 65536 in
     u_escape (55296 + (v / 1024) mod 1024)
     ++ u_escape (56320 + v mod 1024))%N.

Definition encode_string (s : text) : text :=
  [dquote] ++ flat_map escape_char s ++ [dquote].

(** [repr] of an [int]. *)
Definition int_repr (z : Z) : text :=
  str (DecimalString.NilZero.string_of_int (Z.to_int z)).

(** [sep.join(parts)] *)
Fixpoint join (sep : text) (parts : list text) : text :=
  match parts with
  | [] => []
  | [p] => p
  | p :: rest => p ++ sep ++ join sep rest
  end.

(** Order of [str]: lexicographic on code points. *)
Fixpoint text_leb (a b : text) : bool :=
  match a, b with
  | [], _ => true
  | _ :: _, [] => false
  | x :: a', y :: b' =>
      if (x <? y)%N then true
      else if (y <? x)%N then false
      else text_leb a' b'
  end.

(** The items of a [dict] sorted by key (a stable sort; the keys of a
    [dict] are distinct, so the sort never looks at a value). *)
Fixpoint insert_item {V : Type} (kv : text * V) (l : list (text * V))
  : list (text * V) :=
  match l with
  | [] => [kv]
  | kv' :: l' =>
      if text_leb (fst kv) (fst kv') then kv :: l
      else kv' :: insert_item kv l'
  end.

Fixpoint sort_items {V : Type} (l : list (text * V)) : list (text * V) :=
  match l with
  | [] => []
  | kv :: l' => insert_item kv (sort_items l')
  end.

Definition encode_item (kv : text * text) : text :=
  encode_string (fst kv) ++ str ": " ++ snd kv.

(** [json.dumps(v, sort_keys=True)] with the default separators.  The
    values of a [dict] are serialized before its items are sorted, which
    gives the same text as sorting first ([sort_items_map] below). *)
Fixpoint dumps (v : value) : text :=
  match v with
  | VNone => str "null"
  | VBool true => str "true"
  | VBool false => str "false"
  | VInt z => int_repr z
  | VFloat f => float_repr f
  | VStr s => encode_string s
  | VList items => str "[" ++ join (str ", ") (map dumps items) ++ str "]"
  | VDict items =>
      str "{"
      ++ join (str ", ")
           (map encode_item
              (sort_items (map (fun kv => (fst kv, dumps (snd kv))) items)))
      ++ str "}"
  end.

End Encoder.
End JsonEncoder.

Section Dedupe.
Context {F : PyFloat}.

(** [key = json.dumps(r, sort_keys=True)] *)
Definition row_key (r : dict) : text := JsonEncoder.dumps (VDict r).

(** [key in seen]; [seen] is used as a set. *)
Definition seen_contains (seen : list text) (key : text) : bool :=
  existsb (text_eqb key) seen.

Fixpoint dedupe_loop (rows : list dict) (seen : list text) (out : list dict)
  : list dict :=
  match rows with
  | [] => out
  | r :: rest =>
      let key := row_key r in
      if seen_contains seen key then dedupe_loop rest seen out
      else dedupe_loop rest (key :: seen) (out ++ [r])
  end.

Definition dedupe_rows (rows : list dict) : list dict :=
  dedupe_loop rows [] [].

(** Equality of rows as the deduplicator sees it. *)
Definition same_row (r1 r2 : dict) : bool :=
  text_eqb (row_key r1) (row_key r2).

(** The rows that no earlier row equals: [before] holds the rows already
    passed. *)
Fixpoint first_occurrences (before rows : list dict) : list dict :=
  match rows with
  | [] => []
  | r :: rest =>
      if existsb (same_row r) before
      then first_occurrences (before ++ [r]) rest
      else r :: first_occurrences (before ++ [r]) rest
  end.


End Dedupe.

(** ** Request and response models (main.py, lines 25-58) *)

Section Models.
Context {F : PyFloat}.

Record ChunkingOptions : Type := {
  window_size : Z;
  overlap : Z
}.

Record LLMOptions : Type := {
  provider : text;
  model : text;
  temperature : float;
  json_mode : bool
}.

Record ExtractRequest : Type := {
  urls : list text;
  query : text;
  target_rows : Z;
  strategy : option text;
  req_schema : option (list dict);
  chunking : ChunkingOptions;
  llm : LLMOptions;
  filters : option dict
}.

(** The bounds the request model validates before the handler runs. *)
Definition valid_request (req : ExtractRequest) : Prop :=
  200 <= window_size (chunking req) <= 4000
  /\ 0 <= overlap (chunking req) <= 1000
  /\ 1 <= target_rows req <= 2000.

Record PageResult : Type := {
  url : text;
  title : option text;
  rows : list dict;
  page_schema : option (list dict)
}.

Record ExtractResponse : Type := {
  success : bool;
  results : list PageResult;
  error : option text
}.

(** What [fetch_url] returns: the keys [html] and [title] of its dict. *)
Record Fetched : Type := {
  html : option text;
  fetched_title : option text
}.

(** The arguments of [client.chat.completions.create].  [response_format]
    is [None] when the argument is not passed, [Some None] when [None] is
    passed, [Some (Some t)] for [{"type": t}]. *)
Record ChatRequest : Type := {
  chat_model : text;
  chat_temperature : float;
  response_format : option (option text);
  messages : list (text * text)
}.

(** ** TargetAllocator (main.py, line 216) *)

(** [max(1, math.ceil(target_rows / max(1, n_urls)))].  [/] is Python's
    true division; it is taken exactly, as a rational.  The double the
    interpreter computes has the same ceiling for every [target_rows] the
    request model admits (at most 2000). *)
Definition per_url_target (target_rows n_urls : Z) : Z :=
  Z.max 1 (Qceiling (inject_Z target_rows / inject_Z (Z.max 1 n_urls))).

End Models.

(** ** ExtractionOrchestrator: [call_openai_extract] (lines 137-191) and
       [extract] (lines 206-246) *)

(** The collaborators of the service act on a world the service does not
    see into.  [fetch_url] always returns its dict (it catches every
    exception of the HTTP client); constructing the client and asking for
    a completion may raise. *)
Record Collaborators {F : PyFloat} (World : Type) : Type := {
  OPENAI_API_KEY : text;
  DEFAULT_MODEL : text;
  fetch_url : text -> World -> Fetched * World;
  clean_html_to_text : text -> text;
  openai_client : text -> World -> result unit * World;
  chat_completions_create :
    ChatRequest -> World -> result (option text) * World;
  json_loads : text -> result value;
  lower : text -> text
}.
Arguments OPENAI_API_KEY {F World} _.
Arguments DEFAULT_MODEL {F World} _.
Arguments fetch_url {F World} _ _ _.
Arguments clean_html_to_text {F World} _ _.
Arguments openai_client {F World} _ _ _.
Arguments chat_completions_create {F World} _ _ _.
Arguments json_loads {F World} _ _.
Arguments lower {F World} _ _.

Section Service.
Context {F : PyFloat} {World : Type}.
Variable env : Collaborators World.

(** What the service asks of the outside, in order. *)
Inductive event : Type :=
| Fetch (u : text)
| Extract (chunk : text)
| Chat (r : ChatRequest).

Record state : Type := {
  world : World;
  trace : list event
}.

(** State-passing computations. *)
Definition M (A : Type) : Type := state -> A * state.

Definition ret {A : Type} (a : A) : M A := fun st => (a, st).

Definition mbind {A B : Type} (m : M A) (k : A -> M B) : M B :=
  fun st => let (a, st') := m st in k a st'.

Notation "x <~ m ;; k" := (mbind m (fun x => k))
  (at level 61, m at next level, right associativity).

Definition log (e : event) : M unit :=
  fun st => (tt, {| world := world st; trace := trace st ++ [e] |}).

(** A collaborator's action, on the world only. *)
Definition outside {A : Type} (f : World -> A * World) : M A :=
  fun st => let (a, w) := f (world st) in
            (a, {| world := w; trace := trace st |}).

Definition system_prompt : text :=
  str "You are a precise data extractor. Return ONLY JSON. "
  ++ str "Given a chunk of webpage text and a user query, extract structured rows relevant to the query. "
  ++ str "If nothing relevant exists, return an empty array [].".

Definition user_prompt (chunk query : text) : text :=
  str "USER QUERY:" ++ [newline] ++ query ++ [newline; newline]
  ++ str "CHUNK:" ++ [newline] ++ py_slice chunk 0 8000 ++ [newline; newline]
  ++ str "Return JSON array of objects. No prose. No markdown.".

Definition chat_messages (chunk query : text) : list (text * text) :=
  [(str "system", system_prompt); (str "user", user_prompt chunk query)].

(** [resp.choices[0].message.content or ""] *)
Definition content_or_empty (content : option text) : text :=
  match content with
  | Some t => t
  | None => []
  end.

Definition chat (r : ChatRequest) : M (result (option text)) :=
  _ <~ log (Chat r) ;;
  outside (chat_completions_create env r).

Definition call_openai_extract (chunk query model : text)
           (temperature : float) (json_mode : bool) : M (list dict) :=
  _ <~ log (Extract chunk) ;;
  if negb (truthy (OPENAI_API_KEY env)) then ret []
  else
    client <~ outside (openai_client env (OPENAI_API_KEY env)) ;;
    match client with
    | Raise _ => ret []
    | Ok _ =>
        first <~ chat {| chat_model := model;
                         chat_temperature := temperature;
                         response_format :=
                           Some (if json_mode then Some (str "json_object")
                                 else None);
                         messages := chat_messages chunk query |} ;;
        answer <~ match first with
                  | Ok content => ret (Ok content)
                  | Raise _ =>
                      (* Fallback without response_format *)
                      chat {| chat_model := model;
                              chat_temperature := temperature;
                              response_format := None;
                              messages := chat_messages chunk query |}
                  end ;;
        match answer with
        | Raise _ => ret []
        | Ok content =>
            match parse_rows (json_loads env) (content_or_empty content) with
            | Ok rows => ret rows
            | Raise _ => ret []
            end
        end
    end.

(** [a or b] on strings. *)
Definition text_or (a b : text) : text := if truthy a then a else b.

(** The call of lines 231-237. *)
Definition extract_chunk (req : ExtractRequest) (chunk : text)
  : M (list dict) :=
  call_openai_extract chunk (query req)
    (text_or (model (llm req)) (DEFAULT_MODEL env))
    (temperature (llm req)) (json_mode (llm req)).

(** Lines 238-240: [if rows:] extend the accumulator and deduplicate. *)
Definition accumulate (accumulated rows : list dict) : list dict :=
  if truthy rows then dedupe_rows (accumulated ++ rows) else accumulated.

(** The loop over the chunks of one page (lines 230-242). *)
Fixpoint extract_chunks (req : ExtractRequest) (target : Z)
         (chunks : list text) (accumulated : list dict) : M (list dict) :=
  match chunks with
  | [] => ret accumulated
  | chunk :: rest =>
      rows <~ extract_chunk req chunk ;;
      let accumulated := accumulate accumulated rows in
      if len accumulated >=? target then ret accumulated
      else extract_chunks req target rest accumulated
  end.

(** The page text when [html] is truthy: neither [None] nor empty. *)
Definition truthy_html (h : option text) : option text :=
  match h with
  | Some t => if truthy t then Some t else None
  | None => None
  end.

(** The body of the loop over the URLs (lines 220-244). *)
Definition extract_url (req : ExtractRequest) (target : Z) (u : text)
  : M PageResult :=
  _ <~ log (Fetch u) ;;
  fetched <~ outside (fetch_url env u) ;;
  match truthy_html (html fetched) with
  | None =>
      (* if not html *)
      ret {| url := u; title := fetched_title fetched; rows := [];
             page_schema := None |}
  | Some page =>
      let t := clean_html_to_text env page in
      let chunks :=
        Chunker.chunk_text t (window_size (chunking req) * 10)
                           (overlap (chunking req) * 10) in
      accumulated <~ extract_chunks req target chunks [] ;;
      ret {| url := u; title := fetched_title fetched; rows := accumulated;
             page_schema := None |}
  end.

Fixpoint extract_urls (req : ExtractRequest) (target : Z) (us : list text)
         (results : list PageResult) : M (list PageResult) :=
  match us with
  | [] => ret results
  | u :: rest =>
      page <~ extract_url req target u ;;
      extract_urls req target rest (results ++ [page])
  end.

Definition failure (message : string) : ExtractResponse :=
  {| success := false; results := []; error := Some (str message) |}.

Definition extract (req : ExtractRequest) : M ExtractResponse :=
  if negb (truthy (urls req)) then ret (failure "No URLs provided")
  else if negb (text_eqb (lower env (provider (llm req))) (str "openai"))
  then ret (failure "Only OpenAI provider implemented in this server")
  else if negb (truthy (OPENAI_API_KEY env))
  then ret (failure "OPENAI_API_KEY not set on server")
  else
    let target := per_url_target (target_rows req) (len (urls req)) in
    results <~ extract_urls req target (urls req) [] ;;
    ret {| success := true; results := results; error := None |}.

(** The state once [u] has been fetched. *)
Definition fetched_state (u : text) (st : state) : state :=
  {| world := snd (fetch_url env u (world st));
     trace := trace st ++ [Fetch u] |}.

Definition empty_page (u : text) (st : state) : PageResult :=
  {| url := u;
     title := fetched_title (fst (fetch_url env u (world st)));
     rows := [];
     page_schema := None |}.

Definition page_chunks (req : ExtractRequest) (page : text) : list text :=
  Chunker.chunk_text (clean_html_to_text env page)
                     (window_size (chunking req) * 10)
                     (overlap (chunking req) * 10).

(** The three checks that open the handler. *)
Definition rejected (req : ExtractRequest) : Prop :=
  urls req = []
  \/ lower env (provider (llm req)) <> str "openai"
  \/ OPENAI_API_KEY env = [].

(** The chunks sent to extraction, in order. *)
Fixpoint extraction_calls (tr : list event) : list text :=
  match tr with
  | [] => []
  | Extract chunk :: tr' => chunk :: extraction_calls tr'
  | _ :: tr' => extraction_calls tr'
  end.

(** The URLs fetched, in order. *)
Fixpoint fetches (tr : list event) : list text :=
  match tr with
  | [] => []
  | Fetch u :: tr' => u :: fetches tr'
  | _ :: tr' => fetches tr'
  end.

End Service.

(** ** Sample inputs *)

Module Samples.
Section Samples.
Context {F : PyFloat}.

Definition quoted (s : text) : text := dquote :: s ++ [dquote].

(** The row [{"a": 1}] and the texts [{"a":1}] and [[{"a":1}]]. *)
Definition row_a1 : dict := [(str "a", VInt 1)].
Definition object_a1 : text := str "{" ++ quoted (str "a") ++ str ":1}".
Definition array_a1 : text := str "[" ++ object_a1 ++ str "]".

(** The same row [{"a": 1, "b": 2}] built in the two insertion orders. *)
Definition row_ab : dict := [(str "a", VInt 1); (str "b", VInt 2)].
Definition row_ba : dict := [(str "b", VInt 2); (str "a", VInt 1)].

(** A line of prose, then [[{"a":1}]] in a fence labelled json. *)
Definition fenced_answer : text :=
  str "Here are the results:" ++ [newline]
  ++ str "```json" ++ [newline] ++ array_a1 ++ [newline] ++ str "```".


Definition malformed : text := str "{" ++ quoted (str "a") ++ str ": [1, 2".

(** Objects, arrays and fences in one text, interleaved. *)
Definition mixed : text :=
  str "{x} [1] ```json A``` [2] {y} ```JSON" ++ [newline] ++ str "B```".

(** A text of 1000 characters. *)
Definition thousand : text := repeat (ch "x") 1000.

Definition prose : text := str "I could not find any data on this page.".

End Samples.
End Samples.

(** ** A scripted deployment

    A world that only counts what was asked of it: one site is down,
    every other URL serves the same page, and the model answers every
    request with [[{"a":1}]]. *)

Module Scripted.

Definition floats : PyFloat := lexeme_float.

Definition down : text := str "http://down.example/list".
Definition up : text := str "http://up.example/list".

Definition long : text := str "http://long.example/list".

Definition page : text := str "<p>Widget A costs 1. Widget B costs 2.</p>".

(** 16800 characters: three chunks for a window of 6000 and a step of
    5400. *)
Definition long_page : text := concat (repeat page 400).

Definition ascii_lower (t : text) : text :=
  map (fun c => if (65 <=? c) && (c <=? 90) then c + 32 else c)%N t.

Definition env_with_key (key : text) : @Collaborators floats nat :=
  {| OPENAI_API_KEY := key;
     DEFAULT_MODEL := str "gpt-4o-mini";
     fetch_url := fun u w =>
       (if text_eqb u down
        then {| html := None; fetched_title := None |}
        else if text_eqb u long
        then {| html := Some long_page; fetched_title := None |}
        else {| html := Some page; fetched_title := Some (str "Widgets") |},
        S w);
     clean_html_to_text := fun h => h;
     openai_client := fun _ w => (Ok tt, w);
     chat_completions_create := fun _ w =>
       (Ok (Some Samples.array_a1), S w);
     json_loads := JsonDecoder.loads;
     lower := ascii_lower |}.

Definition env : @Collaborators floats nat := env_with_key (str "sk-test").

Definition request (us : list text) (target : Z) (prov : text)
  : @ExtractRequest floats :=
  {| urls := us;
     query := str "widgets and prices";
     target_rows := target;
     strategy := Some (str "llm");
     req_schema := None;
     chunking := {| window_size := 600; overlap := 60 |};
     llm := {| provider := prov; model := str "gpt-4o-mini";
               temperature := @float_of_text floats (str "0.1");
               json_mode := true |};
     filters := None |}.

Definition start : @state floats nat :=
  {| world := 0%nat; trace := [] |}.

End Scripted.

(** ** Further definitions for the properties of the code *)

(** The number of chunks [chunk_text] cuts from [n] characters with a
    window [w > 0] and a step [s >= 1]: none from the empty text, else one
    and as many steps as it takes to bring the window to the end. *)
Definition chunk_count (n w s : Z) : Z :=
  if n <=? 0 then 0 else 1 + (Z.max 0 (n - w) + s - 1) / s.

(** [cands] occur in [t] one after another, from left to right, without
    sharing a character. *)
Fixpoint in_order (cands : list text) (t : text) : Prop :=
  match cands with
  | [] => True
  | c :: rest => exists pre post, t = pre ++ c ++ post /\ in_order rest post
  end.

(** What [match_at] reports lies inside the characters of the match. *)
Definition match_sound (match_at : text -> option (text * nat)) : Prop :=
  forall s found span,
    match_at s = Some (found, span) ->
    (1 <= span <= length s)%nat
    /\ exists a b, firstn span s = a ++ found ++ b.

Section Requests.
Context {F : PyFloat} {World : Type}.
Variable env : Collaborators World.

(** The two completion requests [call_openai_extract] can make for a
    chunk: the first with the response format [json_mode] asks for, the
    fallback without one. *)
Definition first_request (chunk query model : text) (temperature : float)
           (json_mode : bool) : ChatRequest :=
  {| chat_model := model;
     chat_temperature := temperature;
     response_format :=
       Some (if json_mode then Some (str "json_object") else None);
     messages := chat_messages chunk query |}.

Definition fallback_request (chunk query model : text) (temperature : float)
  : ChatRequest :=
  {| chat_model := model;
     chat_temperature := temperature;
     response_format := None;
     messages := chat_messages chunk query |}.

(** The rows parsed from the content of an answer. *)
Definition rows_of_content (content : option text) : list dict :=
  match parse_rows (json_loads env) (content_or_empty content) with
  | Ok rows => rows
  | Raise _ => []
  end.

(** The completion requests made, in order. *)
Fixpoint chat_requests (tr : list event) : list ChatRequest :=
  match tr with
  | [] => []
  | Chat r :: tr' => r :: chat_requests tr'
  | _ :: tr' => chat_requests tr'
  end.

End Requests.

(** A valid request whose overlap exceeds its window, and a page of 2100
    characters for it. *)
Definition dense_request : @ExtractRequest Scripted.floats :=
  {| urls := [Scripted.up];
     query := str "widgets and prices";
     target_rows := 25;
     strategy := Some (str "llm");
     req_schema := None;
     chunking := {| window_size := 200; overlap := 1000 |};
     llm := {| provider := str "openai"; model := [];
               temperature := @float_of_text Scripted.floats (str "0.1");
               json_mode := false |};
     filters := None |}.

Definition dense_page : text := concat (repeat Scripted.page 50).

(** The trace of a run over [us], cut per URL: the fetch of the URL, then
    what was asked for it. *)
Definition url_segments {F : PyFloat} (us : list text)
           (segments : list (list event)) : list event :=
  concat (map (fun p => Fetch (fst p) :: snd p) (combine us segments)).

(** ** [fetch_url] (main.py, lines 93-107) *)

(** The text before the first occurrence of [p] in [s], letter case
    ignored, and the text after that occurrence. *)
Fixpoint find_sub_ignorecase (p s : text) : option (text * text) :=
  match Patterns.starts_with_ignorecase p s with
  | Some rest => Some ([], rest)
  | None =>
      match s with
      | [] => None
      | c :: r =>
          match find_sub_ignorecase p r with
          | Some (before, rest) => Some (c :: before, rest)
          | None => None
          end
      end
  end.

(** Group 1 of [re.search(r"<title>(.*?)</title>", html, re.IGNORECASE |
    re.DOTALL)]: from the first opening tag to the first closing tag after
    it.  When no closing tag follows the first opening tag, none follows a
    later one either. *)
Definition title_match (page : text) : option text :=
  match find_sub_ignorecase (str "<title>") page with
  | None => None
  | Some (_, after) =>
      match find_sub_ignorecase (str "</title>") after with
      | Some (group, _) => Some group
      | None => None
      end
  end.

(** [s.strip()] *)
Definition strip (s : text) : text :=
  rev (drop_while Patterns.is_space (rev (drop_while Patterns.is_space s))).

(** The dict [fetch_url] returns; [error] is absent on success. *)
Record FetchedDict : Type := {
  dict_html : option text;
  dict_title : option text;
  dict_error : option text
}.

Module Fetcher.
Section FetchUrl.
Context {World : Type}.

(** [client.get(url, headers=...)], [resp.raise_for_status()] and
    [resp.text] on a client that follows redirects and gives up after 30
    seconds: the body, or the exception raised. *)
Variable http_get : text -> World -> result text * World.

(** [BeautifulSoup(fragment, "lxml").get_text()] *)
Variable soup_get_text : text -> result text.

(** [str(e)] *)
Variable exn_message : exn -> text.

Definition fetch_failed (e : exn) : FetchedDict :=
  {| dict_html := None; dict_title := None;
     dict_error := Some (exn_message e) |}.

Definition fetch_url (u : text) (w : World) : FetchedDict * World :=
  let (resp, w') := http_get u w in
  match resp with
  | Raise e => (fetch_failed e, w')
  | Ok page =>
      match title_match page with
      | None =>
          ({| dict_html := Some page; dict_title := None;
              dict_error := None |}, w')
      | Some group =>
          match soup_get_text group with
          | Ok t =>
              ({| dict_html := Some page; dict_title := Some (strip t);
                  dict_error := None |}, w')
          | Raise e => (fetch_failed e, w')
          end
      end
  end.

End FetchUrl.
End Fetcher.

(** What [extract] reads of the dict: [fetched.get("html")] and
    [fetched.get("title")]. *)
Definition fetched_of (d : FetchedDict) : Fetched :=
  {| html := dict_html d; fetched_title := dict_title d |}.

(** A deployment that fetches with [fetch_url] over an HTTP client and an
    HTML parser. *)
Definition fetches_with {F : PyFloat} {World : Type}
           (env : Collaborators World)
           (http_get : text -> World -> result text * World)
           (soup_get_text : text -> result text)
           (exn_message : exn -> text) : Prop :=
  forall u w,
    fetch_url env u w
    = (fetched_of
         (fst (Fetcher.fetch_url http_get soup_get_text exn_message u w)),
       snd (Fetcher.fetch_url http_get soup_get_text exn_message u w)).

(** [p] occurs in [s], letter case ignored. *)
Definition occurs_ignorecase (p s : text) : Prop :=
  exists a m b,
    s = a ++ m ++ b /\ Patterns.starts_with_ignorecase p m = Some [].

(** A page with a title, and a scripted HTTP client and HTML parser: the
    client serves that page except from the site that is down, and the
    parser gives up on a fragment holding an ampersand. *)
Definition titled_page : text :=
  str "<html><head><TITLE> Widget list </Title></head><body>w</body></html>".

Definition ampersand_page : text :=
  str "<html><head><title>Widgets &amp; more</title></head></html>".

Definition scripted_get (u : text) (w : nat) : result text * nat :=
  (if text_eqb u Scripted.down then Raise (OtherError "ConnectError")
   else if text_eqb u Scripted.long then Ok ampersand_page
   else Ok titled_page, S w).

Definition scripted_soup (fragment : text) : result text :=
  if existsb (N.eqb (ch "&")) fragment
  then Raise (OtherError "ParserRejectedMarkup")
  else Ok fragment.

Definition scripted_message (e : exn) : text :=
  match e with
  | OtherError name => str name
  | _ => str "error"
  end.

(** The scripted deployment, fetching with [fetch_url] over the scripted
    client and parser. *)
Definition fetching_env : @Collaborators Scripted.floats nat :=
  {| OPENAI_API_KEY := OPENAI_API_KEY Scripted.env;
     DEFAULT_MODEL := DEFAULT_MODEL Scripted.env;
     fetch_url := fun u w =>
       (fetched_of
          (fst (Fetcher.fetch_url scripted_get scripted_soup scripted_message
                                  u w)),
        snd (Fetcher.fetch_url scripted_get scripted_soup scripted_message
                               u w));
     clean_html_to_text := clean_html_to_text Scripted.env;
     openai_client := openai_client Scripted.env;
     chat_completions_create := chat_completions_create Scripted.env;
     json_loads := json_loads Scripted.env;
     lower := lower Scripted.env |}.

(** ** [clean_html_to_text] (main.py, lines 66-74) *)

Module Cleaner.

(** The length of the white space at the head of [r] up to and including
    its last line feed, when it holds a line feed. *)
Fixpoint blank_run (r : text) : option nat :=
  match r with
  | [] => None
  | c :: r' =>
      if Patterns.is_space c then
        match blank_run r' with
        | Some n => Some (S n)
        | None => if (c =? newline)%N then Some 1%nat else None
        end
      else None
  end.

(** [re.sub(r"\n\s*\n+", "\n\n", text)]: a match starts at a line feed
    that is followed, after white space only, by another line feed, and
    runs to the last such line feed; it is replaced by two line feeds and
    the scan resumes behind it.  [skip] counts the characters still inside
    the last match. *)
Fixpoint collapse (s : text) (skip : nat) : text :=
  match s with
  | [] => []
  | c :: r =>
      match skip with
      | S k => collapse r k
      | O =>
          if (c =? newline)%N then
            match blank_run r with
            | Some n => newline :: newline :: collapse r n
            | None => c :: collapse r 0
            end
          else c :: collapse r 0
      end
  end.

Section Clean.

(** [BeautifulSoup(html, "lxml")], its [script], [style] and [noscript]
    tags decomposed, then [get_text(separator="\n")]. *)
Variable soup_text : text -> text.

Definition clean_html_to_text (page : text) : text :=
  let t := soup_text page in
  let t := collapse t 0 in
  strip t.

End Clean.

(** The number of line feeds at the head of a text. *)
Fixpoint newline_run (s : text) : nat :=
  match s with
  | [] => 0
  | c :: r => if (c =? newline)%N then S (newline_run r) else 0
  end.

(** No more than two line feeds in a row, anywhere. *)
Fixpoint calm (s : text) : Prop :=
  match s with
  | [] => True
  | _ :: r => (newline_run s <= 2)%nat /\ calm r
  end.

(** The characters that are not white space, in order. *)
Definition inked (s : text) : text :=
  filter (fun c => negb (Patterns.is_space c)) s.

End Cleaner.

(** Two requests that agree on what the handler reads: the URLs, the
    query, the target, the chunking and the model options. *)
Definition same_reading {F : PyFloat} (r1 r2 : ExtractRequest) : Prop :=
  urls r1 = urls r2
  /\ query r1 = query r2
  /\ target_rows r1 = target_rows r2
  /\ chunking r1 = chunking r2
  /\ llm r1 = llm r2.

(** ** Further sample inputs *)

(** The object [{"items":[{"a":1}]}]: no key ["rows"], and a list of one
    row under another key. *)
Definition object_with_items : text :=
  str "{" ++ Samples.quoted (str "items") ++ str ":" ++ Samples.array_a1
  ++ str "}".

(** The answer [[{"a":1},{"a":1}]]: the same row twice. *)
Definition array_a1_twice : text :=
  str "[" ++ Samples.object_a1 ++ str "," ++ Samples.object_a1 ++ str "]".

(** The scripted deployment with a model that answers every request with
    the same row twice. *)
Definition repeating_env : @Collaborators Scripted.floats nat :=
  {| OPENAI_API_KEY := OPENAI_API_KEY Scripted.env;
     DEFAULT_MODEL := DEFAULT_MODEL Scripted.env;
     fetch_url := fetch_url Scripted.env;
     clean_html_to_text := clean_html_to_text Scripted.env;
     openai_client := openai_client Scripted.env;
     chat_completions_create := fun _ w => (Ok (Some array_a1_twice), S w);
     json_loads := json_loads Scripted.env;
     lower := lower Scripted.env |}.

(** * Theorems *)

(** ** Slicing *)

Section SliceFacts.
Context {A : Type}.
Implicit Types l : list A.

Lemma len_nonneg l : 0 <= len l.
Proof. unfold len; lia. Qed.

Lemma py_slice_inside l a b :
  0 <= a <= b -> b <= len l ->
  py_slice l a b = firstn (Z.to_nat (b - a)) (skipn (Z.to_nat a) l).
Proof.
  intros Hab Hb. unfold py_slice, clamp_index.
  destruct (Z.ltb_spec a 0); [lia|].
  destruct (Z.ltb_spec b 0); [lia|].
  rewrite !Z.min_l by lia. reflexivity.
Qed.

Lemma py_slice_suffix l a :
  0 <= a <= len l -> py_slice l a (len l) = skipn (Z.to_nat a) l.
Proof.
  intros Ha. rewrite py_slice_inside by lia.
  apply firstn_all2. rewrite length_skipn. unfold len in *. lia.
Qed.

Lemma len_py_slice_inside l a b :
  0 <= a <= b -> b <= len l -> len (py_slice l a b) = b - a.
Proof.
  intros Hab Hb. rewrite py_slice_inside by assumption.
  unfold len in *. rewrite length_firstn, length_skipn. lia.
Qed.

(** A prefix of a slice is a slice. *)
Lemma py_slice_prefix l a b s :
  0 <= a <= b -> b <= len l -> 0 <= s <= b - a ->
  py_slice (py_slice l a b) 0 s = py_slice l a (a + s).
Proof.
  intros Hab Hb Hs.
  rewrite (py_slice_inside (py_slice l a b) 0 s)
    by (rewrite ?len_py_slice_inside; lia).
  rewrite (py_slice_inside l a b), (py_slice_inside l a (a + s)) by lia.
  simpl skipn. rewrite firstn_firstn. f_equal. lia.
Qed.

Lemma py_slice_then_rest l a b :
  0 <= a <= b -> b <= len l ->
  py_slice l a b ++ skipn (Z.to_nat b) l = skipn (Z.to_nat a) l.
Proof.
  intros Hab Hb. rewrite py_slice_inside by assumption.
  replace (Z.to_nat b) with (Z.to_nat (b - a) + Z.to_nat a)%nat by lia.
  rewrite <- skipn_skipn. apply firstn_skipn.
Qed.

End SliceFacts.

(** ** TextChunker *)

Module ChunkerFacts.
Import Chunker.

Lemma seq_succ_map {B : Type} (f : nat -> B) (k : nat) :
  map f (seq 0 (S k)) = f 0%nat :: map (fun i => f (S i)) (seq 0 k).
Proof. simpl. rewrite <- seq_shift, map_map. reflexivity. Qed.

Lemma layout_step t w s start k :
  1 <= s -> s <= w ->
  layout t w s start (S (S k)) -> layout t w s (start + s) (S k).
Proof.
  intros Hs Hsw (_ & Hlast & Hmid).
  destruct Hlast as [Hlt Hend]; [discriminate|].
  pose proof (Hmid 0%nat ltac:(lia)) as H0.
  repeat split.
  - discriminate.
  - lia.
  - lia.
  - intros i Hi. specialize (Hmid (S i) ltac:(lia)). lia.
Qed.

(** The loop, started at [start] with [chunks] already emitted and enough
    fuel, ends and appends the chunks cut at [start], [start + step], ... *)
Lemma chunk_loop_spec fuel : forall t w s start chunks,
  0 < w -> 1 <= s -> s <= w -> 0 <= start ->
  Z.max 0 (len t - start) < Z.of_nat fuel ->
  exists k : nat,
    chunk_loop fuel t w s start chunks
    = Some (chunks ++ map (fun i => chunk_at t w (start + Z.of_nat i * s))
                          (seq 0 k))
    /\ layout t w s start k.
Proof.
  induction fuel as [|fuel IH]; intros t w s start chunks Hw Hs Hsw Hst Hfuel.
  - lia.
  - cbn [chunk_loop]. destruct (Z.ltb_spec start (len t)) as [Hlt|Hge].
    + destruct (Z.geb_spec (Z.min (len t) (start + w)) (len t)) as [Hend|Hend].
      * exists 1%nat. split.
        -- cbn [seq map]. unfold chunk_at.
           replace (start + Z.of_nat 0 * s) with start by lia. reflexivity.
        -- repeat split; lia.
      * destruct (IH t w s (start + s)
                     (chunks ++ [py_slice t start (Z.min (len t) (start + w))])
                     Hw Hs Hsw ltac:(lia) ltac:(lia)) as (k & Hrun & Hk).
        exists (S k). split.
        -- rewrite Hrun, seq_succ_map, <- app_assoc. cbn [app].
           unfold chunk_at at 2.
           replace (start + Z.of_nat 0 * s) with start by lia.
           do 3 f_equal. apply map_ext. intros i. f_equal. lia.
        -- destruct Hk as (Hz & Hlast & Hmid). repeat split.
           ++ discriminate.
           ++ assumption.
           ++ destruct k as [|k]; [specialize (Hz eq_refl); lia|].
              destruct Hlast as [_ Hl']; [discriminate|]. lia.
           ++ intros [|i] Hi; [lia|]. specialize (Hmid i ltac:(lia)). lia.
    + exists 0%nat. split.
      * cbn [seq map]. rewrite app_nil_r. reflexivity.
      * repeat split; lia.
Qed.

Lemma nonoverlapping_cons2 s c c' rest :
  nonoverlapping s (c :: c' :: rest)
  = py_slice c 0 s ++ nonoverlapping s (c' :: rest).
Proof. reflexivity. Qed.

(** Chunks laid out as [layout] says give back the text from [start] on. *)
Lemma nonoverlapping_layout k : forall t w s start,
  0 < w -> 1 <= s -> s <= w -> 0 <= start ->
  layout t w s start k ->
  nonoverlapping s (map (fun i => chunk_at t w (start + Z.of_nat i * s))
                        (seq 0 k))
  = skipn (Z.to_nat start) t.
Proof.
  induction k as [|k IH]; intros t w s start Hw Hs Hsw Hst Hlay.
  - destruct Hlay as (Hz & _). specialize (Hz eq_refl).
    cbn. symmetry. apply skipn_all2. unfold len in Hz. lia.
  - destruct k as [|k].
    + destruct Hlay as (_ & Hlast & _).
      destruct Hlast as [Hlt Hend]; [discriminate|].
      cbn [seq map nonoverlapping]. unfold chunk_at.
      replace (start + Z.of_nat 0 * s) with start by lia.
      rewrite Z.min_l by lia. apply py_slice_suffix. lia.
    + pose proof (layout_step _ _ _ _ _ Hs Hsw Hlay) as Hlay'.
      destruct Hlay as (_ & _ & Hmid).
      pose proof (Hmid 0%nat ltac:(lia)) as H0.
      specialize (IH t w s (start + s) Hw Hs Hsw ltac:(lia) Hlay').
      rewrite seq_succ_map.
      rewrite (map_ext (fun i => chunk_at t w (start + Z.of_nat (S i) * s))
                       (fun i => chunk_at t w (start + s + Z.of_nat i * s)))
        by (intros i; f_equal; lia).
      remember (map (fun i => chunk_at t w (start + s + Z.of_nat i * s))
                    (seq 0 (S k))) as later eqn:Hlater.
      destruct later as [|c later]; [discriminate|].
      rewrite nonoverlapping_cons2, IH. unfold chunk_at.
      replace (start + Z.of_nat 0 * s) with start by lia.
      rewrite Z.min_r by lia.
      rewrite py_slice_prefix by lia.
      apply py_slice_then_rest; lia.
Qed.

(** More fuel never changes what the loop returns. *)
Lemma chunk_loop_fuel_mono fuel : forall fuel' t w s start chunks out,
  (fuel <= fuel')%nat ->
  chunk_loop fuel t w s start chunks = Some out ->
  chunk_loop fuel' t w s start chunks = Some out.
Proof.
  induction fuel as [|fuel IH]; intros fuel' t w s start chunks out Hle Hrun.
  - discriminate.
  - destruct fuel' as [|fuel']; [lia|].
    cbn [chunk_loop] in *.
    destruct (start <? len t); [|assumption].
    destruct (Z.min (len t) (start + w) >=? len t); [assumption|].
    apply IH; [lia|assumption].
Qed.

(** The loop ends whatever the window is, because [start] grows by at
    least one character per iteration; it emits at most one chunk per
    character left. *)
Lemma chunk_loop_terminates fuel : forall t w s start chunks,
  1 <= s -> Z.max 0 (len t - start) < Z.of_nat fuel ->
  exists out,
    chunk_loop fuel t w s start chunks = Some (chunks ++ out)
    /\ len out <= Z.max 0 (len t - start).
Proof.
  induction fuel as [|fuel IH]; intros t w s start chunks Hs Hfuel.
  - lia.
  - cbn [chunk_loop]. destruct (Z.ltb_spec start (len t)) as [Hlt|Hge].
    + destruct (Z.min (len t) (start + w) >=? len t).
      * eexists. split; [reflexivity|]. unfold len at 1. cbn. lia.
      * destruct (IH t w s (start + s)
                     (chunks ++ [py_slice t start (Z.min (len t) (start + w))])
                     Hs ltac:(lia)) as (out & Hrun & Hlen).
        exists (py_slice t start (Z.min (len t) (start + w)) :: out).
        rewrite Hrun, <- app_assoc. split; [reflexivity|].
        unfold len in *. cbn [length]. lia.
    + exists []. rewrite app_nil_r. split; [reflexivity|].
      unfold len at 1. cbn. lia.
Qed.

Lemma chunk_text_fuel_enough t w o fuel :
  (length t < fuel)%nat ->
  chunk_text_fuel fuel t w o = Some (chunk_text t w o).
Proof.
  intros Hfuel. unfold chunk_text, chunk_text_fuel.
  destruct (w <=? 0); [reflexivity|].
  destruct (chunk_loop_terminates (S (length t)) t w (Z.max 1 (w - o)) 0 []
              ltac:(lia) ltac:(unfold len; lia)) as (out & Hrun & _).
  rewrite Hrun. eapply chunk_loop_fuel_mono; [|exact Hrun]. lia.
Qed.

Lemma chunk_starts_from_zero t w s k :
  map (fun i => chunk_at t w (0 + Z.of_nat i * s)) (seq 0 k)
  = map (chunk_at t w) (chunk_starts s k).
Proof. unfold chunk_starts. rewrite map_map. reflexivity. Qed.

(** [chunk_text] for a positive window and a non-negative overlap. *)
Lemma chunk_text_layout t w o :
  0 < w -> 0 <= o ->
  exists k : nat,
    chunk_text t w o = map (chunk_at t w) (chunk_starts (Z.max 1 (w - o)) k)
    /\ layout t w (Z.max 1 (w - o)) 0 k.
Proof.
  intros Hw Ho. unfold chunk_text, chunk_text_fuel.
  destruct (Z.leb_spec w 0); [lia|].
  destruct (chunk_loop_spec (S (length t)) t w (Z.max 1 (w - o)) 0 []
              Hw ltac:(lia) ltac:(lia) ltac:(lia) ltac:(unfold len; lia))
    as (k & Hrun & Hlay).
  exists k. rewrite Hrun. cbn [app].
  rewrite chunk_starts_from_zero. split; [reflexivity|assumption].
Qed.

(** C1.  For a window [w > 0] and an overlap [o >= 0], [chunk_text] returns
    (the loop does end) the chunks [t[start : min(n, start + w)]] cut at
    the starts [0, s, 2s, ...] with [s = max(1, w - o)]; the last chunk
    ends at [n]; and the first [s] characters of every chunk but the last,
    followed by the whole last chunk, give [t] back.  For [w = 600],
    [o = 60] and a text of 1000 characters the chunks are [t[0:600]] and
    [t[540:1000]]. *)
Theorem chunk_text_covers :
  (forall (t : text) (w o : Z), 0 < w -> 0 <= o ->
     let n := len t in
     let s := Z.max 1 (w - o) in
     exists k : nat,
       chunk_text_fuel (S (length t)) t w o = Some (chunk_text t w o)
       /\ chunk_text t w o
          = map (fun start => py_slice t start (Z.min n (start + w)))
                (chunk_starts s k)
       /\ (k <> 0%nat -> Z.min n ((Z.of_nat k - 1) * s + w) = n)
       /\ nonoverlapping s (chunk_text t w o) = t)
  /\ (forall t : text, len t = 1000 ->
        chunk_text t 600 60 = [py_slice t 0 600; py_slice t 540 1000]).
Proof.
  split.
  - intros t w o Hw Ho n s.
    destruct (chunk_text_layout t w o Hw Ho) as (k & Hk & Hlay).
    fold s in Hk, Hlay. exists k. repeat split.
    + apply chunk_text_fuel_enough. lia.
    + exact Hk.
    + intros Hne. destruct Hlay as (_ & Hlast & _).
      destruct (Hlast Hne) as [_ Hend]. subst n. lia.
    + rewrite Hk, <- chunk_starts_from_zero.
      apply (nonoverlapping_layout k t w s 0 Hw); subst s; (lia || exact Hlay).
  - intros t Hn.
    destruct (chunk_text_layout t 600 60 ltac:(lia) ltac:(lia)) as (k & Hk & Hlay).
    replace (Z.max 1 (600 - 60)) with 540 in * by lia.
    destruct Hlay as (Hz & Hlast & Hmid).
    assert (k = 2%nat) as ->.
    { destruct k as [|[|[|k]]].
      - specialize (Hz eq_refl). lia.
      - destruct Hlast as [_ Hl]; [discriminate|]. lia.
      - reflexivity.
      - specialize (Hmid 1%nat ltac:(lia)). lia. }
    rewrite Hk. cbn [chunk_starts seq map]. unfold chunk_at.
    rewrite Hn. reflexivity.
Qed.

Lemma chunk_text_covers_witness :
  (let t := str "abcdefghij" in
   exists k : nat,
     chunk_text_fuel (S (length t)) t 4 1 = Some (chunk_text t 4 1)
     /\ chunk_text t 4 1
        = map (fun start => py_slice t start (Z.min (len t) (start + 4)))
              (chunk_starts (Z.max 1 (4 - 1)) k)
     /\ (k <> 0%nat ->
         Z.min (len t) ((Z.of_nat k - 1) * Z.max 1 (4 - 1) + 4) = len t)
     /\ nonoverlapping (Z.max 1 (4 - 1)) (chunk_text t 4 1) = t)
  /\ chunk_text Samples.thousand 600 60
     = [py_slice Samples.thousand 0 600; py_slice Samples.thousand 540 1000].
Proof.
  split.
  - intro t. apply (proj1 chunk_text_covers t 4 1); lia.
  - apply (proj2 chunk_text_covers Samples.thousand). reflexivity.
Defined.

(** C8.  For every text, every window [w > 0] and every overlap [o >= 0]
    (also [o >= w], where the step [max(1, w - o)] is 1) the loop of
    [chunk_text] ends: [len t + 1] loop tests suffice, any larger budget
    returns the same chunks, and there are at most [len t] of them. *)
Theorem chunk_text_terminates (t : text) (w o : Z) :
  0 < w -> 0 <= o ->
  1 <= Z.max 1 (w - o)
  /\ exists chunks : list text,
       (forall fuel : nat, (length t < fuel)%nat ->
          chunk_text_fuel fuel t w o = Some chunks)
       /\ chunk_text t w o = chunks
       /\ (length chunks <= length t)%nat.
Proof.
  intros Hw Ho. split; [lia|].
  exists (chunk_text t w o). repeat split.
  - intros fuel Hfuel. now apply chunk_text_fuel_enough.
  - unfold chunk_text, chunk_text_fuel.
    destruct (Z.leb_spec w 0); [lia|].
    destruct (chunk_loop_terminates (S (length t)) t w (Z.max 1 (w - o)) 0 []
                ltac:(lia) ltac:(unfold len; lia)) as (out & Hrun & Hlen).
    rewrite Hrun. cbn [app]. unfold len in Hlen. lia.
Qed.

Lemma chunk_text_terminates_witness :
  1 <= Z.max 1 (2 - 5)
  /\ exists chunks : list text,
       (forall fuel : nat, (length (str "abc") < fuel)%nat ->
          chunk_text_fuel fuel (str "abc") 2 5 = Some chunks)
       /\ chunk_text (str "abc") 2 5 = chunks
       /\ (length chunks <= length (str "abc"))%nat.
Proof.
  apply (chunk_text_terminates (str "abc") 2 5); lia.
Defined.

End ChunkerFacts.

(** ** ResultParser *)

Section ParserFacts.
Context {F : PyFloat}.
Variable loads : text -> result value.

Lemma safe_parse_rows_returns (t : text) :
  exists rows, safe_parse_rows loads t = Ok rows.
Proof.
  unfold safe_parse_rows.
  destruct (safe_parse_rows_try loads t) as [[rows|]|e]; eauto.
Qed.

Lemma safe_parse_rows_failure (t : text) (e : exn) :
  loads t = Raise e -> safe_parse_rows loads t = Ok [].
Proof.
  intros Hraise. unfold safe_parse_rows, safe_parse_rows_try.
  rewrite Hraise. reflexivity.
Qed.

Lemma first_rows_returns (candidates : list text) :
  exists rows, first_rows loads candidates = Ok rows.
Proof.
  induction candidates as [|cand rest IH]; cbn [first_rows].
  - eauto.
  - destruct (safe_parse_rows_returns cand) as (rows & ->). cbn [bind].
    destruct (truthy rows); eauto.
Qed.

Lemma parse_rows_returns (t : text) :
  exists rows, parse_rows loads t = Ok rows.
Proof.
  unfold parse_rows.
  destruct (safe_parse_rows_returns t) as (rows & ->). cbn [bind].
  destruct (truthy rows); eauto using first_rows_returns.
Qed.

(** Candidates that give no rows are passed over. *)
Lemma first_rows_skip (before rest : list text) :
  (forall c, In c before -> safe_parse_rows loads c = Ok []) ->
  first_rows loads (before ++ rest) = first_rows loads rest.
Proof.
  induction before as [|c before IH]; intros Hnone; cbn [app first_rows].
  - reflexivity.
  - rewrite (Hnone c (or_introl eq_refl)). cbn [bind truthy].
    apply IH. intros c' Hin. apply Hnone. now right.
Qed.

Lemma first_rows_none (candidates : list text) :
  (forall c, In c candidates -> safe_parse_rows loads c = Ok []) ->
  first_rows loads candidates = Ok [].
Proof.
  intros Hnone. rewrite <- (app_nil_r candidates).
  now rewrite first_rows_skip.
Qed.

Lemma first_rows_hit (before after : list text) (cand : text)
      (rows : list dict) :
  (forall c, In c before -> safe_parse_rows loads c = Ok []) ->
  safe_parse_rows loads cand = Ok rows -> rows <> [] ->
  first_rows loads (before ++ cand :: after) = Ok rows.
Proof.
  intros Hnone Hcand Hrows. rewrite first_rows_skip by assumption.
  cbn [first_rows]. rewrite Hcand. cbn [bind].
  destruct rows; [congruence|reflexivity].
Qed.


End ParserFacts.

Section ParserResults.
Context {F : PyFloat}.

Import Samples.

(** C2.  Whatever the decoder does, on every text [safe_parse_rows], the
    scan of the candidates and the two together return a list of rows and
    raise nothing; a text on which the decoder raises gives no rows, and
    when it raises on the text and on every candidate the result is the
    empty list.  With the reference decoder this is the outcome for the
    empty string, for malformed JSON and for prose without brackets. *)
Theorem parse_rows_total :
  (forall (loads : text -> result value) (t : text),
      (exists rows, safe_parse_rows loads t = Ok rows)
      /\ (exists rows, first_rows loads (extract_json_candidates t) = Ok rows)
      /\ (exists rows, parse_rows loads t = Ok rows))
  /\ (forall (loads : text -> result value) (t : text) (e : exn),
        loads t = Raise e -> safe_parse_rows loads t = Ok [])
  /\ (forall (loads : text -> result value) (t : text),
        (forall c, In c (t :: extract_json_candidates t) ->
                   exists e, loads c = Raise e) ->
        parse_rows loads t = Ok [])
  /\ parse_rows JsonDecoder.loads [] = Ok []
  /\ parse_rows JsonDecoder.loads malformed = Ok []
  /\ parse_rows JsonDecoder.loads prose = Ok [].
Proof.
  split; [|split; [|split; [|split; [|split]]]].
  - intros loads t. split; [|split].
    + apply safe_parse_rows_returns.
    + apply first_rows_returns.
    + apply parse_rows_returns.
  - intros loads t e. apply safe_parse_rows_failure.
  - intros loads t Hraise. unfold parse_rows.
    destruct (Hraise t (or_introl eq_refl)) as (e & He).
    rewrite (safe_parse_rows_failure loads t e He). cbn [bind truthy].
    apply first_rows_none. intros c Hin.
    destruct (Hraise c (or_intror Hin)) as (e' & He').
    now apply safe_parse_rows_failure with e'.
  - vm_compute. reflexivity.
  - vm_compute. reflexivity.
  - vm_compute. reflexivity.
Qed.

(** C3.  When the direct parse of the output gives no rows, the result
    is that of the candidates taken in this order: the bodies of the
    fences labelled json, then the bracketed fragments, then the braced
    ones, each kind from left to right; the rows returned are those of
    the first candidate that gives any, and there are none when no
    candidate gives any.  A text that interleaves the three kinds shows
    the order.  For a line of prose followed by [[{"a":1}]] in a json
    fence the result is the one row [{"a": 1}]. *)
Theorem parse_rows_priority :
  (forall (loads : text -> result value) (t : text),
      safe_parse_rows loads t = Ok [] ->
      let candidates :=
        Patterns.findall Patterns.fence_at t 0
        ++ Patterns.findall Patterns.array_at t 0
        ++ Patterns.findall Patterns.object_at t 0 in
      extract_json_candidates t = candidates
      /\ parse_rows loads t = first_rows loads candidates
      /\ (forall before cand after rows,
             candidates = before ++ cand :: after ->
             (forall c, In c before -> safe_parse_rows loads c = Ok []) ->
             safe_parse_rows loads cand = Ok rows -> rows <> [] ->
             parse_rows loads t = Ok rows)
      /\ ((forall c, In c candidates -> safe_parse_rows loads c = Ok []) ->
          parse_rows loads t = Ok []))
  /\ extract_json_candidates mixed
     = [str "A"; str "B"; str "[1]"; str "[2]"; str "{x}"; str "{y}"]
  /\ safe_parse_rows JsonDecoder.loads fenced_answer = Ok []
  /\ Patterns.findall Patterns.fence_at fenced_answer 0
     = [array_a1 ++ [newline]]
  /\ parse_rows JsonDecoder.loads fenced_answer = Ok [row_a1].
Proof.
  split; [|split; [|split; [|split]]; vm_compute; reflexivity].
  intros loads t Hdirect candidates.
  assert (Hcands : extract_json_candidates t = candidates).
  { unfold extract_json_candidates, candidates. cbn [app].
    now rewrite app_assoc. }
  assert (Hparse : parse_rows loads t = first_rows loads candidates).
  { unfold parse_rows. rewrite Hdirect, Hcands. reflexivity. }
  repeat split.
  - exact Hcands.
  - exact Hparse.
  - intros before cand after rows Hsplit Hnone Hcand Hrows.
    rewrite Hparse, Hsplit. now apply first_rows_hit.
  - intros Hnone. rewrite Hparse. now apply first_rows_none.
Qed.


End ParserResults.

Lemma parse_rows_total_witness :
  let loads := JsonDecoder.loads (F := lexeme_float) in
  loads Samples.prose = Raise JSONDecodeError
  /\ safe_parse_rows loads Samples.prose = Ok []
  /\ parse_rows loads Samples.prose = Ok [].
Proof.
  intro loads.
  assert (H : loads Samples.prose = Raise JSONDecodeError)
    by (vm_compute; reflexivity).
  split; [exact H|]. split.
  - exact (proj1 (proj2 (@parse_rows_total lexeme_float))
                 loads Samples.prose JSONDecodeError H).
  - apply (proj1 (proj2 (proj2 (@parse_rows_total lexeme_float)))).
    intros c [<-|Hin].
    + exists JSONDecodeError. exact H.
    + vm_compute in Hin. destruct Hin.
Defined.

Lemma parse_rows_priority_witness :
  let loads := JsonDecoder.loads (F := lexeme_float) in
  safe_parse_rows loads Samples.fenced_answer = Ok []
  /\ parse_rows loads Samples.fenced_answer
     = first_rows loads
         (Patterns.findall Patterns.fence_at Samples.fenced_answer 0
          ++ Patterns.findall Patterns.array_at Samples.fenced_answer 0
          ++ Patterns.findall Patterns.object_at Samples.fenced_answer 0)
  /\ parse_rows loads Samples.fenced_answer = Ok [Samples.row_a1].
Proof.
  intro loads.
  assert (H : safe_parse_rows loads Samples.fenced_answer = Ok [])
    by (vm_compute; reflexivity).
  destruct (proj1 (@parse_rows_priority lexeme_float) loads
                  Samples.fenced_answer H) as (_ & Hfirst & Hhit & _).
  split; [exact H|]. split; [exact Hfirst|].
  apply (Hhit [] (Samples.array_a1 ++ [newline])
              [Samples.array_a1; Samples.object_a1] [Samples.row_a1]).
  - vm_compute. reflexivity.
  - intros c [].
  - vm_compute. reflexivity.
  - discriminate.
Defined.


(** The response [{"items":[{"a":1}]}] is an object with no key ["rows"],
    and [safe_parse_rows] gives no rows for it; the list inside it is
    found as a bracketed candidate, and the response ends with the row
    [{"a": 1}]. *)
Lemma nested_list_gives_rows :
  JsonDecoder.loads (F := lexeme_float) object_with_items
  = Ok (VDict [(str "items", VList [VDict Samples.row_a1])])
  /\ dict_get (F := lexeme_float)
              [(str "items", VList [VDict Samples.row_a1])] rows_key = None
  /\ safe_parse_rows (F := lexeme_float) JsonDecoder.loads object_with_items
     = Ok []
  /\ hd_error (extract_json_candidates object_with_items)
     = Some Samples.array_a1
  /\ parse_rows (F := lexeme_float) JsonDecoder.loads object_with_items
     = Ok [Samples.row_a1].
Proof. repeat split; vm_compute; reflexivity. Qed.

(** ** RowDeduplicator *)

Section TextOrder.
Import JsonEncoder.

Lemma text_eqb_eq (a b : text) : text_eqb a b = true <-> a = b.
Proof.
  unfold text_eqb. destruct (list_eq_dec N.eq_dec a b); split;
    congruence.
Qed.

Lemma text_eqb_refl (a : text) : text_eqb a a = true.
Proof. now apply text_eqb_eq. Qed.

Lemma text_eqb_sym (a b : text) : text_eqb a b = text_eqb b a.
Proof.
  unfold text_eqb.
  destruct (list_eq_dec N.eq_dec a b), (list_eq_dec N.eq_dec b a);
    congruence.
Qed.






(** Serializing the values and sorting the items can be done in either
    order. *)
Lemma insert_item_map {V W : Type} (f : V -> W) (kv : text * V) l :
  insert_item (fst kv, f (snd kv)) (map (fun x => (fst x, f (snd x))) l)
  = map (fun x => (fst x, f (snd x))) (insert_item kv l).
Proof.
  induction l as [|x l IH]; cbn [insert_item map fst]; [reflexivity|].
  destruct (text_leb (fst kv) (fst x)); cbn [map]; [reflexivity|].
  now rewrite IH.
Qed.

Lemma sort_items_map {V W : Type} (f : V -> W) (l : list (text * V)) :
  sort_items (map (fun x => (fst x, f (snd x))) l)
  = map (fun x => (fst x, f (snd x))) (sort_items l).
Proof.
  induction l as [|kv l IH]; cbn [sort_items map]; [reflexivity|].
  rewrite IH. apply insert_item_map.
Qed.

End TextOrder.

Section DedupeFacts.
Context {F : PyFloat}.


Lemma same_row_eq (r1 r2 : dict) :
  same_row r1 r2 = true <-> row_key r1 = row_key r2.
Proof. apply text_eqb_eq. Qed.

(** The loop keeps in [seen] the keys of the rows passed so far. *)
Lemma dedupe_loop_first_occurrences (rows : list dict) :
  forall seen before out,
    (forall key, seen_contains seen key
                 = existsb (fun b => text_eqb key (row_key b)) before) ->
    dedupe_loop rows seen out = out ++ first_occurrences before rows.
Proof.
  induction rows as [|r rest IH]; intros seen before out Hseen;
    cbn [dedupe_loop first_occurrences].
  - now rewrite app_nil_r.
  - unfold same_row at 1. rewrite <- Hseen.
    destruct (seen_contains seen (row_key r)) eqn:Er.
    + apply IH. intros key. rewrite existsb_app, <- Hseen. cbn [existsb].
      rewrite orb_false_r.
      destruct (text_eqb key (row_key r)) eqn:Ek;
        [|now rewrite orb_false_r].
      apply text_eqb_eq in Ek. subst key. rewrite Er. reflexivity.
    + rewrite (IH (row_key r :: seen) (before ++ [r]) (out ++ [r])).
      * now rewrite <- app_assoc.
      * intros key. rewrite existsb_app, <- Hseen.
        unfold seen_contains. cbn [existsb].
        rewrite orb_false_r. apply orb_comm.
Qed.

Lemma dedupe_rows_first_occurrences (rows : list dict) :
  dedupe_rows rows = first_occurrences [] rows.
Proof.
  unfold dedupe_rows.
  now rewrite (dedupe_loop_first_occurrences rows [] [] []).
Qed.

(** A row that is kept equals none of the rows before the scan. *)
Lemma first_occurrences_fresh (rows : list dict) : forall before r,
  In r (first_occurrences before rows) ->
  existsb (same_row r) before = false.
Proof.
  induction rows as [|x rest IH]; intros before r; cbn [first_occurrences].
  - intros [].
  - assert (Hrest : In r (first_occurrences (before ++ [x]) rest) ->
                    existsb (same_row r) before = false).
    { intros Hin. apply IH in Hin. rewrite existsb_app in Hin.
      now apply orb_false_iff in Hin. }
    destruct (existsb (same_row x) before) eqn:Ex; [exact Hrest|].
    intros [<-|Hin]; [exact Ex|now apply Hrest].
Qed.

Lemma first_occurrences_incl (rows : list dict) : forall before r,
  In r (first_occurrences before rows) -> In r rows.
Proof.
  induction rows as [|x rest IH]; intros before r; cbn [first_occurrences].
  - intros [].
  - destruct (existsb (same_row x) before).
    + intros Hin. right. eapply IH, Hin.
    + intros [<-|Hin]; [now left|right; eapply IH, Hin].
Qed.

(** The rows kept have pairwise different keys. *)
Lemma first_occurrences_nodup (rows : list dict) : forall before,
  NoDup (map row_key (first_occurrences before rows)).
Proof.
  induction rows as [|x rest IH]; intros before; cbn [first_occurrences].
  - constructor.
  - destruct (existsb (same_row x) before); [apply IH|].
    cbn [map]. constructor; [|apply IH].
    intros Hin. apply in_map_iff in Hin as (r & Hkey & Hin).
    apply first_occurrences_fresh in Hin.
    rewrite existsb_app in Hin. apply orb_false_iff in Hin as [_ Hin].
    cbn [existsb] in Hin. rewrite orb_false_r in Hin.
    apply same_row_eq in Hkey. congruence.
Qed.


(** Rows with pairwise different keys, none equal to an earlier row, are
    all kept. *)
Lemma first_occurrences_id (l : list dict) : forall before,
  NoDup (map row_key l) ->
  (forall r, In r l -> existsb (same_row r) before = false) ->
  first_occurrences before l = l.
Proof.
  induction l as [|x l IH]; intros before Hnodup Hfresh;
    cbn [first_occurrences]; [reflexivity|].
  rewrite (Hfresh x (or_introl eq_refl)). f_equal.
  cbn [map] in Hnodup. inversion Hnodup as [|? ? Hnotin Hnodup']; subst.
  apply IH; [exact Hnodup'|].
  intros r Hin. rewrite existsb_app, (Hfresh r (or_intror Hin)).
  cbn [existsb orb]. rewrite orb_false_r.
  destruct (same_row r x) eqn:E; [|reflexivity].
  exfalso. apply Hnotin. apply same_row_eq in E. rewrite <- E.
  now apply in_map.
Qed.


Import Samples.


End DedupeFacts.


(** ** TargetAllocator *)

Section TargetFacts.

(** The ceiling of the exact quotient, in integer arithmetic. *)
Lemma Qceiling_div (r u : Z) :
  0 < u -> Qceiling (inject_Z r / inject_Z u) = - ((- r) / u).
Proof.
  intros Hu. destruct u as [|p|p]; try lia.
  unfold Qceiling, Qfloor, Qdiv, Qmult, Qinv, Qopp, inject_Z.
  cbn [Qnum Qden]. rewrite Z.mul_1_r, Pos.mul_1_l. reflexivity.
Qed.

(** C9.  For a target [R >= 1] and [U >= 1] URLs the per-URL target is
    [max(1, c)] where [c] is the ceiling of [R / U], the integer with
    [(c - 1) * U < R <= c * U]; it is at least 1 and is that ceiling
    itself.  25 rows over 4 URLs give 7, 1 row over 1 URL gives 1. *)
Theorem per_url_target_ceiling :
  (forall R U : Z, 1 <= R -> 1 <= U ->
     exists c : Z,
       (c - 1) * U < R <= c * U
       /\ per_url_target R U = Z.max 1 c
       /\ per_url_target R U = c)
  /\ per_url_target 25 4 = 7
  /\ per_url_target 1 1 = 1.
Proof.
  split; [|split; reflexivity].
  intros R U HR HU. exists (- ((- R) / U)).
  unfold per_url_target. replace (Z.max 1 U) with U by lia.
  rewrite Qceiling_div by lia.
  pose proof (Z.div_mod (- R) U ltac:(lia)) as Hdm.
  pose proof (Z.mod_pos_bound (- R) U ltac:(lia)) as Hb.
  repeat split; nia.
Qed.

Lemma per_url_target_ceiling_witness :
  exists c : Z,
    (c - 1) * 3 < 10 <= c * 3
    /\ per_url_target 10 3 = Z.max 1 c
    /\ per_url_target 10 3 = c.
Proof.
  apply (proj1 per_url_target_ceiling 10 3); lia.
Defined.

End TargetFacts.

(** ** ExtractionOrchestrator *)

Section ServiceFacts.
Context {F : PyFloat} {World : Type}.
Variable env : Collaborators World.

Lemma extraction_calls_app (a b : list event) :
  extraction_calls (a ++ b) = extraction_calls a ++ extraction_calls b.
Proof.
  induction a as [|[u|chunk|r] a IH]; cbn [app extraction_calls];
    rewrite ?IH; reflexivity.
Qed.

Lemma fetches_app (a b : list event) :
  fetches (a ++ b) = fetches a ++ fetches b.
Proof.
  induction a as [|[u|chunk|r] a IH]; cbn [app fetches];
    rewrite ?IH; reflexivity.
Qed.

(** A completion request adds one [Chat] event. *)
Lemma chat_trace (r : ChatRequest) (st : state) :
  trace (snd (chat env r st)) = trace st ++ [Chat r].
Proof.
  unfold chat, mbind, log, outside. cbn.
  destruct (chat_completions_create env r (world st)). reflexivity.
Qed.

(** One call of [call_openai_extract] is one [Extract] event, followed by
    completion requests only. *)
Lemma call_openai_extract_trace chunk q m temp jm (st : state) :
  exists chats,
    trace (snd (call_openai_extract env chunk q m temp jm st))
    = trace st ++ Extract chunk :: chats
    /\ extraction_calls chats = [] /\ fetches chats = [].
Proof.
  unfold call_openai_extract, mbind, log, outside, ret.
  destruct (truthy (OPENAI_API_KEY env)); cbn [negb world trace].
  2: { exists []. repeat split; reflexivity. }
  destruct (openai_client env _ _) as [[[]|e] w].
  2: { exists []. repeat split; reflexivity. }
  match goal with
  | |- context [chat env ?r ?s] =>
      pose proof (chat_trace r s) as H1;
      destruct (chat env r s) as [[content|e1] st1]
  end; cbn [snd trace] in H1.
  - eexists [_].
    destruct (parse_rows (json_loads env) (content_or_empty content));
      cbn [snd]; rewrite H1, <- app_assoc; repeat split; reflexivity.
  - match goal with
    | |- context [chat env ?r ?s] =>
        pose proof (chat_trace r s) as H2;
        destruct (chat env r s) as [[content|e2] st2]
    end; cbn [snd trace] in H2.
    + eexists [_; _].
      destruct (parse_rows (json_loads env) (content_or_empty content));
        cbn [snd]; rewrite H2, H1, <- !app_assoc; repeat split; reflexivity.
    + eexists [_; _]. cbn [snd]. rewrite H2, H1, <- !app_assoc.
      repeat split; reflexivity.
Qed.

Lemma call_openai_extract_calls chunk q m temp jm (st : state) :
  extraction_calls (trace (snd (call_openai_extract env chunk q m temp jm st)))
  = extraction_calls (trace st) ++ [chunk].
Proof.
  destruct (call_openai_extract_trace chunk q m temp jm st)
    as (chats & -> & Hc & _).
  rewrite extraction_calls_app. cbn [extraction_calls]. now rewrite Hc.
Qed.

Lemma extract_chunk_calls req chunk (st : state) :
  extraction_calls (trace (snd (extract_chunk env req chunk st)))
  = extraction_calls (trace st) ++ [chunk].
Proof. apply call_openai_extract_calls. Qed.

Lemma extract_chunk_fetches req chunk (st : state) :
  fetches (trace (snd (extract_chunk env req chunk st)))
  = fetches (trace st).
Proof.
  unfold extract_chunk.
  destruct (call_openai_extract_trace
              chunk (query req)
              (text_or (model (llm req)) (DEFAULT_MODEL env))
              (temperature (llm req)) (json_mode (llm req)) st)
    as (chats & -> & _ & Hf).
  rewrite fetches_app. cbn [fetches]. rewrite Hf. apply app_nil_r.
Qed.

(** One round of the loop over the chunks. *)
Lemma extract_chunks_cons req target chunk rest accumulated (st : state) :
  extract_chunks env req target (chunk :: rest) accumulated st
  = let (rows, st1) := extract_chunk env req chunk st in
    let accumulated := accumulate accumulated rows in
    if len accumulated >=? target then (accumulated, st1)
    else extract_chunks env req target rest accumulated st1.
Proof.
  cbn [extract_chunks]. unfold mbind.
  destruct (extract_chunk env req chunk st) as [rows st1].
  destruct (len (accumulate accumulated rows) >=? target); reflexivity.
Qed.


(** The chunks sent to extraction are an initial segment of the chunks
    of the page, and the loop leaves chunks out only when the target is
    reached. *)
Lemma extract_chunks_calls req target (chunks : list text) :
  forall accumulated (st : state),
  exists sent skipped,
    chunks = sent ++ skipped
    /\ extraction_calls
         (trace (snd (extract_chunks env req target chunks accumulated st)))
       = extraction_calls (trace st) ++ sent
    /\ (skipped <> [] ->
        target <= len (fst (extract_chunks env req target chunks
                                           accumulated st))).
Proof.
  induction chunks as [|chunk rest IH]; intros accumulated st.
  - exists [], []. cbn. rewrite app_nil_r. repeat split. congruence.
  - rewrite extract_chunks_cons.
    pose proof (extract_chunk_calls req chunk st) as Hcall.
    destruct (extract_chunk env req chunk st) as [rows st1].
    cbn [snd] in Hcall. cbv zeta.
    destruct (Z.geb_spec (len (accumulate accumulated rows)) target).
    + exists [chunk], rest. cbn [fst snd]. repeat split; auto.
    + destruct (IH (accumulate accumulated rows) st1)
        as (sent & skipped & -> & Hsent & Hskip).
      exists (chunk :: sent), skipped. rewrite Hsent, Hcall, <- app_assoc.
      repeat split. exact Hskip.
Qed.

Lemma extract_chunks_fetches req target (chunks : list text) :
  forall accumulated (st : state),
    fetches (trace (snd (extract_chunks env req target chunks
                                        accumulated st)))
    = fetches (trace st).
Proof.
  induction chunks as [|chunk rest IH]; intros accumulated st.
  - reflexivity.
  - rewrite extract_chunks_cons.
    pose proof (extract_chunk_fetches req chunk st) as Hcall.
    destruct (extract_chunk env req chunk st) as [rows st1].
    cbn [snd] in Hcall. cbv zeta.
    destruct (len (accumulate accumulated rows) >=? target).
    + exact Hcall.
    + now rewrite IH.
Qed.

Lemma extract_url_unfold req target u (st : state) :
  extract_url env req target u st
  = match truthy_html (html (fst (fetch_url env u (world st)))) with
    | None => (empty_page env u st, fetched_state env u st)
    | Some page =>
        let (accumulated, st') :=
          extract_chunks env req target (page_chunks env req page) []
                         (fetched_state env u st) in
        ({| url := u;
            title := fetched_title (fst (fetch_url env u (world st)));
            rows := accumulated;
            page_schema := None |}, st')
    end.
Proof.
  unfold extract_url, mbind, log, outside, ret, fetched_state, empty_page,
    page_chunks.
  cbn [world trace].
  destruct (fetch_url env u (world st)) as [fetched w]. cbn [fst snd].
  destruct (truthy_html (html fetched)); reflexivity.
Qed.

Lemma extract_url_url req target u (st : state) :
  url (fst (extract_url env req target u st)) = u.
Proof.
  rewrite extract_url_unfold.
  destruct (truthy_html _); [|reflexivity].
  destruct (extract_chunks _ _ _ _ _ _). reflexivity.
Qed.

(** Every URL is fetched once, whatever comes of it. *)
Lemma extract_url_fetches req target u (st : state) :
  fetches (trace (snd (extract_url env req target u st)))
  = fetches (trace st) ++ [u].
Proof.
  rewrite extract_url_unfold.
  destruct (truthy_html _).
  - pose proof (extract_chunks_fetches req target (page_chunks env req t) []
                                       (fetched_state env u st)) as H.
    destruct (extract_chunks _ _ _ _ _ _). cbn [snd] in *.
    rewrite H. unfold fetched_state. cbn [trace].
    now rewrite fetches_app.
  - unfold fetched_state. cbn [snd trace]. now rewrite fetches_app.
Qed.

Lemma extract_urls_cons req target u rest results (st : state) :
  extract_urls env req target (u :: rest) results st
  = let (page, st1) := extract_url env req target u st in
    extract_urls env req target rest (results ++ [page]) st1.
Proof. reflexivity. Qed.

(** The results so far are only carried along. *)
Lemma extract_urls_results req target (us : list text) :
  forall results (st : state),
    extract_urls env req target us results st
    = (results ++ fst (extract_urls env req target us [] st),
       snd (extract_urls env req target us [] st)).
Proof.
  induction us as [|u rest IH]; intros results st.
  - cbn. now rewrite app_nil_r.
  - rewrite !extract_urls_cons.
    destruct (extract_url env req target u st) as [page st1].
    rewrite (IH (results ++ [page])), (IH ([] ++ [page])).
    cbn [fst snd app]. now rewrite <- app_assoc.
Qed.

Lemma extract_urls_app req target (before after : list text) (st : state) :
  extract_urls env req target (before ++ after) [] st
  = let done := extract_urls env req target before [] st in
    extract_urls env req target after (fst done) (snd done).
Proof.
  revert st. induction before as [|u before IH]; intros st.
  - reflexivity.
  - cbn [app]. rewrite !extract_urls_cons.
    destruct (extract_url env req target u st) as [page st1].
    rewrite (extract_urls_results req target (before ++ after)), IH.
    cbv zeta.
    rewrite (extract_urls_results req target before ([] ++ [page])).
    cbn [fst snd].
    rewrite (extract_urls_results req target after
               (([] ++ [page]) ++ _)).
    rewrite (extract_urls_results req target after
               (fst (extract_urls env req target before [] st1))).
    cbn [fst snd]. now rewrite !app_assoc.
Qed.

(** One page per URL, in the order of the URLs. *)
Lemma extract_urls_urls req target (us : list text) : forall (st : state),
  map url (fst (extract_urls env req target us [] st)) = us.
Proof.
  induction us as [|u rest IH]; intros st.
  - reflexivity.
  - rewrite extract_urls_cons.
    pose proof (extract_url_url req target u st) as Hu.
    destruct (extract_url env req target u st) as [page st1].
    rewrite extract_urls_results. cbn [fst app map] in *.
    now rewrite Hu, IH.
Qed.

Lemma extract_urls_fetches req target (us : list text) :
  forall (st : state),
    fetches (trace (snd (extract_urls env req target us [] st)))
    = fetches (trace st) ++ us.
Proof.
  induction us as [|u rest IH]; intros st.
  - cbn. now rewrite app_nil_r.
  - rewrite extract_urls_cons.
    pose proof (extract_url_fetches req target u st) as Hu.
    destruct (extract_url env req target u st) as [page st1].
    rewrite extract_urls_results. cbn [snd] in *.
    now rewrite IH, Hu, <- app_assoc.
Qed.

Lemma extract_rejected req (st : state) :
  rejected env req ->
  exists message,
    message <> []
    /\ extract env req st
       = ({| success := false; results := []; error := Some message |}, st).
Proof.
  intros Hrej. unfold extract.
  destruct (urls req) as [|u us] eqn:Hu; cbn [truthy negb].
  { eexists. split; [|reflexivity]. discriminate. }
  destruct (text_eqb (lower env (provider (llm req))) (str "openai"))
    eqn:Hp; cbn [negb].
  2: { eexists. split; [|reflexivity]. discriminate. }
  destruct (OPENAI_API_KEY env) as [|k ks] eqn:Hk; cbn [truthy negb].
  { eexists. split; [|reflexivity]. discriminate. }
  exfalso. apply text_eqb_eq in Hp.
  destruct Hrej as [H|[H|H]]; congruence.
Qed.

Lemma extract_accepted req (st : state) :
  ~ rejected env req ->
  extract env req st
  = let done :=
      extract_urls env req
        (per_url_target (target_rows req) (len (urls req))) (urls req) []
        st in
    ({| success := true; results := fst done; error := None |}, snd done).
Proof.
  intros Hacc. unfold rejected in Hacc. unfold extract.
  destruct (urls req) as [|u us] eqn:Hu; cbn [truthy negb].
  { exfalso. apply Hacc. now left. }
  destruct (text_eqb (lower env (provider (llm req))) (str "openai"))
    eqn:Hp; cbn [negb].
  2: { exfalso. apply Hacc. right. left. intros H.
       apply text_eqb_eq in H. congruence. }
  destruct (OPENAI_API_KEY env) as [|k ks] eqn:Hk; cbn [truthy negb].
  { exfalso. apply Hacc. right. right. reflexivity. }
  unfold mbind, ret. cbv zeta.
  destruct (extract_urls _ _ _ _ _ _). reflexivity.
Qed.

End ServiceFacts.

Section StopFacts.
Context {F : PyFloat} {World : Type}.
Variable env : Collaborators World.





End StopFacts.



(** A model that answers [[{"a":1},{"a":1}]] to every request, one URL
    with a page of three chunks and a target of two rows: the first chunk
    yields two rows, as many as the per-URL target, the accumulator holds
    one row after deduplication, and all three chunks are sent to the
    model; the page ends with that one row. *)
Lemma first_chunk_duplicates_no_stop :
  let env := repeating_env in
  let req := Scripted.request [Scripted.long] 2 (str "openai") in
  let chunk := hd [] (page_chunks env req Scripted.long_page) in
  let first := extract_chunk env req chunk
                 (fetched_state env Scripted.long Scripted.start) in
  per_url_target (target_rows req) (len (urls req)) = 2
  /\ length (page_chunks env req Scripted.long_page) = 3%nat
  /\ fst first = [Samples.row_a1; Samples.row_a1]
  /\ (per_url_target (target_rows req) (len (urls req)) <=? len (fst first))
     = true
  /\ length (extraction_calls (trace (snd (extract env req Scripted.start))))
     = 3%nat
  /\ map rows (results (fst (extract env req Scripted.start)))
     = [[Samples.row_a1]].
Proof. repeat split; vm_compute; reflexivity. Qed.

Section LocalFacts.
Context {F : PyFloat} {World : Type}.
Variable env : Collaborators World.

(** A URL whose fetch brings no page gives an empty page, costs the
    fetch and nothing else. *)
Lemma extract_url_fetch_failed req target u (st : state) :
  truthy_html (html (fst (fetch_url env u (world st)))) = None ->
  extract_url env req target u st
  = (empty_page env u st, fetched_state env u st).
Proof. intros Hnone. now rewrite extract_url_unfold, Hnone. Qed.

(** The pages of the URLs before a failed fetch, the empty page, then the
    pages of the URLs after it. *)
Lemma extract_urls_fetch_failed req target before u after (st : state) :
  let done := extract_urls env req target before [] st in
  truthy_html (html (fst (fetch_url env u (world (snd done))))) = None ->
  extract_urls env req target (before ++ u :: after) [] st
  = (fst done ++ empty_page env u (snd done)
         :: fst (extract_urls env req target after []
                              (fetched_state env u (snd done))),
     snd (extract_urls env req target after []
                       (fetched_state env u (snd done)))).
Proof.
  intros done Hnone. rewrite extract_urls_app. fold done. cbv zeta.
  rewrite extract_urls_cons, (extract_url_fetch_failed _ _ _ _ Hnone).
  rewrite extract_urls_results. cbn [fst snd].
  now rewrite <- app_assoc.
Qed.

End LocalFacts.

(** C6.  A URL whose fetch brings no page gets a PageResult with no rows,
    at the cost of that one fetch and no extraction call, and the URLs
    after it are processed from there.  For a request that passes the
    three opening checks (URLs given, provider openai, key present) the
    response has success = true, no error and one PageResult per URL in
    the order of the request, each URL having been fetched once.  On the
    scripted deployment, two URLs of which the first is down give an empty
    page for it and the row [{"a": 1}] for the second. *)
Theorem fetch_failure_is_local :
  (forall (F : PyFloat) (World : Type) (env : Collaborators World)
          (req : ExtractRequest) (st : state),
      urls req <> [] ->
      lower env (provider (llm req)) = str "openai" ->
      OPENAI_API_KEY env <> [] ->
      let target := per_url_target (target_rows req) (len (urls req)) in
      let response := fst (extract env req st) in
      success response = true
      /\ error response = None
      /\ map url (results response) = urls req
      /\ fetches (trace (snd (extract env req st)))
         = fetches (trace st) ++ urls req
      /\ (forall before u after,
             urls req = before ++ u :: after ->
             let done := extract_urls env req target before [] st in
             let st1 := fetched_state env u (snd done) in
             truthy_html (html (fst (fetch_url env u (world (snd done)))))
             = None ->
             extract_url env req target u (snd done)
             = ({| url := u;
                   title := fetched_title
                              (fst (fetch_url env u (world (snd done))));
                   rows := [];
                   page_schema := None |}, st1)
             /\ extraction_calls (trace st1)
                = extraction_calls (trace (snd done))
             /\ results response
                = fst done
                  ++ fst (extract_url env req target u (snd done))
                  :: fst (extract_urls env req target after [] st1)))
  /\ (let response :=
        fst (extract Scripted.env
                     (Scripted.request [Scripted.down; Scripted.up] 10
                                       (str "openai"))
                     Scripted.start) in
      success response = true
      /\ map url (results response) = [Scripted.down; Scripted.up]
      /\ map rows (results response) = [[]; [Samples.row_a1]]).
Proof.
  split; [|vm_compute; repeat split; reflexivity].
  intros F World env req st Hurls0 Hprovider Hkey target response.
  assert (Hacc : ~ rejected env req).
  { intros [H|[H|H]]; contradiction. }
  subst response. rewrite (extract_accepted env req st Hacc).
  fold target. cbv zeta. cbn [fst snd success error results].
  split; [reflexivity|]. split; [reflexivity|].
  split; [apply extract_urls_urls|]. split; [apply extract_urls_fetches|].
  intros before u after Hurls Hnone.
  rewrite (extract_url_fetch_failed env req target u _ Hnone).
  split; [reflexivity|]. split.
  - unfold fetched_state. cbn [trace].
    rewrite extraction_calls_app. cbn [extraction_calls]. apply app_nil_r.
  - rewrite Hurls.
    rewrite (extract_urls_fetch_failed env req target before u after st Hnone).
    reflexivity.
Qed.

Lemma fetch_failure_is_local_witness :
  let env := Scripted.env in
  let req := Scripted.request [Scripted.down; Scripted.up] 10 (str "openai") in
  success (fst (extract env req Scripted.start)) = true
  /\ map url (results (fst (extract env req Scripted.start))) = urls req
  /\ rows (fst (extract_url env req 5 Scripted.down Scripted.start)) = [].
Proof.
  intros env req.
  destruct (proj1 fetch_failure_is_local Scripted.floats nat env req
                  Scripted.start)
    as (Hok & _ & Hurls & _ & Hlocal).
  - discriminate.
  - reflexivity.
  - discriminate.
  - destruct (Hlocal [] Scripted.down [Scripted.up] eq_refl eq_refl)
      as (Hpage & _ & _).
    split; [exact Hok|]. split; [exact Hurls|].
    change (per_url_target (target_rows req) (len (urls req))) with 5
      in Hpage.
    cbn [extract_urls ret snd] in Hpage. now rewrite Hpage.
Defined.

(** C7.  When the URL list is empty, or the provider (lower-cased) is not
    openai, or the API key is empty, the handler answers success = false
    with a non-empty error text and no results, and the state is the
    state it started in: nothing was fetched and no extraction was
    called.  Otherwise, and only then, the answer has success = true, no
    error and one PageResult per URL.  On the scripted deployment a
    missing key, another provider and an empty URL list are each
    refused. *)
Theorem extract_rejects_before_work :
  (forall (F : PyFloat) (World : Type) (env : Collaborators World)
          (req : ExtractRequest) (st : state),
      (rejected env req ->
       exists message,
         message <> []
         /\ extract env req st
            = ({| success := false; results := []; error := Some message |},
               st))
      /\ (~ rejected env req ->
          success (fst (extract env req st)) = true
          /\ error (fst (extract env req st)) = None
          /\ map url (results (fst (extract env req st))) = urls req
          /\ results (fst (extract env req st)) <> [])
      /\ (success (fst (extract env req st)) = true <-> ~ rejected env req))
  /\ extract (Scripted.env_with_key [])
             (Scripted.request [Scripted.up] 10 (str "openai"))
             Scripted.start
     = (failure "OPENAI_API_KEY not set on server", Scripted.start)
  /\ extract Scripted.env
             (Scripted.request [Scripted.up] 10 (str "anthropic"))
             Scripted.start
     = (failure "Only OpenAI provider implemented in this server",
        Scripted.start)
  /\ extract Scripted.env (Scripted.request [] 10 (str "openai"))
             Scripted.start
     = (failure "No URLs provided", Scripted.start).
Proof.
  split; [|split; [|split]; vm_compute; reflexivity].
  intros F World env req st.
  assert (Hacc : ~ rejected env req ->
                 success (fst (extract env req st)) = true
                 /\ error (fst (extract env req st)) = None
                 /\ map url (results (fst (extract env req st))) = urls req
                 /\ results (fst (extract env req st)) <> []).
  { intros Hacc. rewrite (extract_accepted env req st Hacc).
    cbv zeta. cbn [fst success error results].
    split; [reflexivity|]. split; [reflexivity|].
    pose proof (extract_urls_urls env req
                  (per_url_target (target_rows req) (len (urls req)))
                  (urls req) st) as Hurls.
    split; [exact Hurls|].
    intros Hnil. rewrite Hnil in Hurls. cbn [map] in Hurls.
    apply Hacc. left. now symmetry. }
  split; [apply extract_rejected|]. split; [exact Hacc|]. split.
  - intros Hok Hrej.
    destruct (extract_rejected env req st Hrej) as (message & _ & Heq).
    rewrite Heq in Hok. discriminate.
  - intros Hnot. now apply Hacc.
Qed.

Lemma extract_rejects_before_work_witness :
  let req := Scripted.request [Scripted.up] 10 (str "OpenAI") in
  (rejected (Scripted.env_with_key []) req
   /\ exists message,
        message <> []
        /\ extract (Scripted.env_with_key []) req Scripted.start
           = ({| success := false; results := []; error := Some message |},
              Scripted.start))
  /\ (~ rejected Scripted.env req
      /\ success (fst (extract Scripted.env req Scripted.start)) = true
      /\ map url (results (fst (extract Scripted.env req Scripted.start)))
         = urls req).
Proof.
  intros req.
  assert (Hrej : rejected (Scripted.env_with_key []) req)
    by (right; right; reflexivity).
  assert (Hacc : ~ rejected Scripted.env req).
  { intros [H|[H|H]]; vm_compute in H; try discriminate. now apply H. }
  split.
  - split; [exact Hrej|].
    exact (proj1 (proj1 extract_rejects_before_work Scripted.floats nat
                        (Scripted.env_with_key []) req Scripted.start) Hrej).
  - split; [exact Hacc|].
    destruct (proj1 (proj2 (proj1 extract_rejects_before_work Scripted.floats
                                  nat Scripted.env req Scripted.start)) Hacc)
      as (Hok & _ & Hurls & _).
    split; [exact Hok|exact Hurls].
Defined.

(** * Further properties of the code *)

(** ** TextChunker: sizes, number and overlap of the chunks *)

Module ChunkerShape.
Import Chunker ChunkerFacts.

(** The loop for any step [s >= 1]: the chunks are cut at [start],
    [start + s], ... inside the text, and every chunk but the last stops
    short of the end. *)
Lemma chunk_loop_shape fuel : forall t w s start chunks,
  1 <= s -> 0 <= start ->
  Z.max 0 (len t - start) < Z.of_nat fuel ->
  exists k : nat,
    chunk_loop fuel t w s start chunks
    = Some (chunks ++ map (fun i => chunk_at t w (start + Z.of_nat i * s))
                          (seq 0 k))
    /\ (forall i : nat, (i < k)%nat -> start + Z.of_nat i * s < len t)
    /\ (forall i : nat, (S i < k)%nat ->
                        start + Z.of_nat i * s + w < len t).
Proof.
  induction fuel as [|fuel IH]; intros t w s start chunks Hs Hst Hfuel.
  - lia.
  - cbn [chunk_loop]. destruct (Z.ltb_spec start (len t)) as [Hlt|Hge].
    + destruct (Z.geb_spec (Z.min (len t) (start + w)) (len t)) as [Hend|Hend].
      * exists 1%nat. split; [|split].
        -- cbn [seq map]. unfold chunk_at.
           replace (start + Z.of_nat 0 * s) with start by lia. reflexivity.
        -- intros i Hi. replace i with 0%nat by lia. lia.
        -- intros i Hi. lia.
      * destruct (IH t w s (start + s)
                     (chunks ++ [py_slice t start (Z.min (len t) (start + w))])
                     Hs ltac:(lia) ltac:(lia)) as (k & Hrun & Hin & Hmid).
        exists (S k). split; [|split].
        -- rewrite Hrun, seq_succ_map, <- app_assoc. cbn [app].
           unfold chunk_at at 2.
           replace (start + Z.of_nat 0 * s) with start by lia.
           do 3 f_equal. apply map_ext. intros i. f_equal. lia.
        -- intros [|i] Hi; [lia|]. specialize (Hin i ltac:(lia)). lia.
        -- intros [|i] Hi; [lia|]. specialize (Hmid i ltac:(lia)). lia.
    + exists 0%nat. split; [|split].
      * cbn [seq map]. now rewrite app_nil_r.
      * intros i Hi. lia.
      * intros i Hi. lia.
Qed.

Lemma len_chunk_at t w start :
  0 < w -> 0 <= start < len t ->
  len (chunk_at t w start) = Z.min (len t) (start + w) - start.
Proof.
  intros Hw Hst. unfold chunk_at. apply len_py_slice_inside; lia.
Qed.

Lemma nth_error_map_seq {B : Type} (f : nat -> B) (k i : nat) (b : B) :
  nth_error (map f (seq 0 k)) i = Some b -> (i < k)%nat /\ b = f i.
Proof.
  intros Hnth.
  assert (Hi : (i < k)%nat).
  { assert (H : (i < length (map f (seq 0 k)))%nat)
      by (apply nth_error_Some; congruence).
    now rewrite length_map, length_seq in H. }
  split; [exact Hi|].
  rewrite nth_error_map, nth_error_seq in Hnth.
  destruct (Nat.ltb_spec i k); [|lia]. cbn in Hnth. congruence.
Qed.

(** No chunk is longer than the window. *)
Lemma chunk_len_le (t : text) (w o : Z) (c : text) :
  0 < w -> In c (chunk_text t w o) -> len c <= w.
Proof.
  intros Hw Hin. unfold chunk_text, chunk_text_fuel in Hin.
  destruct (Z.leb_spec w 0); [lia|].
  destruct (chunk_loop_shape (S (length t)) t w (Z.max 1 (w - o)) 0 []
              ltac:(lia) ltac:(lia) ltac:(unfold len; lia))
    as (k & Hrun & Hinside & _).
  rewrite Hrun in Hin. cbn [app] in Hin.
  apply in_map_iff in Hin as (i & <- & Hi). apply in_seq in Hi.
  specialize (Hinside i ltac:(lia)).
  assert (Hpos : 0 <= Z.of_nat i * Z.max 1 (w - o))
    by (apply Z.mul_nonneg_nonneg; lia).
  rewrite len_chunk_at by lia. lia.
Qed.

(** X1.  For a window [w > 0], whatever the overlap, no chunk is empty, no
    chunk is longer than the window, and every chunk but the last has
    exactly [w] characters. *)
Theorem chunk_sizes (t : text) (w o : Z) (i : nat) (c : text) :
  0 < w ->
  nth_error (chunk_text t w o) i = Some c ->
  1 <= len c <= w
  /\ ((S i < length (chunk_text t w o))%nat -> len c = w).
Proof.
  intros Hw Hnth. unfold chunk_text, chunk_text_fuel in *.
  destruct (Z.leb_spec w 0); [lia|].
  destruct (chunk_loop_shape (S (length t)) t w (Z.max 1 (w - o)) 0 []
              ltac:(lia) ltac:(lia) ltac:(unfold len; lia))
    as (k & Hrun & Hin & Hmid).
  rewrite Hrun in *. cbn [app] in *.
  rewrite length_map, length_seq.
  apply nth_error_map_seq in Hnth as [Hi ->].
  specialize (Hin i Hi).
  assert (Hpos : 0 <= Z.of_nat i * Z.max 1 (w - o))
    by (apply Z.mul_nonneg_nonneg; lia).
  rewrite len_chunk_at by lia. split; [lia|].
  intros Hnext. specialize (Hmid i Hnext). lia.
Qed.

Lemma chunk_sizes_witness :
  1 <= len (str "abcd") <= 4
  /\ ((1 < length (chunk_text (str "abcdefghij") 4 1))%nat ->
      len (str "abcd") = 4).
Proof.
  apply (chunk_sizes (str "abcdefghij") 4 1 0 (str "abcd")).
  - lia.
  - reflexivity.
Defined.

Lemma len_chunks_at (t : text) (w s : Z) (k : nat) :
  len (map (chunk_at t w) (chunk_starts s k)) = Z.of_nat k.
Proof. unfold len, chunk_starts. now rewrite !length_map, length_seq. Qed.

(** The number of chunks a layout has. *)
Lemma layout_count (t : text) (w s : Z) (k : nat) :
  0 < w -> 1 <= s -> layout t w s 0 k ->
  Z.of_nat k = chunk_count (len t) w s.
Proof.
  intros Hw Hs (Hz & Hlast & Hmid).
  unfold chunk_count. destruct (Z.leb_spec (len t) 0) as [Hn|Hn].
  - destruct k as [|k]; [reflexivity|].
    destruct Hlast as [Hlt _]; [discriminate|lia].
  - destruct k as [|k]; [specialize (Hz eq_refl); lia|].
    destruct Hlast as [_ Hend]; [discriminate|].
    set (a := Z.max 0 (len t - w)).
    assert (Hq : (a + s - 1) / s = Z.of_nat k).
    { symmetry. apply (Z.div_unique_pos _ _ _ (a + s - 1 - Z.of_nat k * s)).
      - split.
        + destruct k as [|k]; [subst a; lia|].
          pose proof (Hmid k ltac:(lia)). subst a. lia.
        + subst a. lia.
      - ring. }
    rewrite Hq. lia.
Qed.

(** X2.  For a window [w > 0] and an overlap [o >= 0] a text of [n]
    characters gives [chunk_count n w s] chunks with [s = max(1, w - o)]:
    none when it is empty, one when it fits the window, and one more for
    every step it takes to bring the window to the end; a non-empty text
    no longer than the window comes back whole as the only chunk. *)
Theorem chunk_text_count (t : text) (w o : Z) :
  0 < w -> 0 <= o ->
  len (chunk_text t w o) = chunk_count (len t) w (Z.max 1 (w - o))
  /\ (0 < len t <= w -> chunk_text t w o = [t]).
Proof.
  intros Hw Ho.
  destruct (chunk_text_layout t w o Hw Ho) as (k & Hk & Hlay).
  set (s := Z.max 1 (w - o)) in *.
  assert (Hs : 1 <= s) by (subst s; lia).
  split.
  - rewrite Hk, len_chunks_at. now apply layout_count.
  - intros Hfit. destruct Hlay as (Hz & Hlast & Hmid).
    assert (Hone : k = 1%nat).
    { destruct k as [|[|k]]; [specialize (Hz eq_refl); lia|reflexivity|].
      pose proof (Hmid 0%nat ltac:(lia)). lia. }
    subst k. rewrite Hk. cbn [chunk_starts seq map]. unfold chunk_at.
    rewrite Z.min_l by lia. cbn [Z.of_nat Z.mul].
    rewrite py_slice_suffix by lia. reflexivity.
Qed.

Lemma chunk_text_count_witness :
  len (chunk_text Samples.thousand 600 60)
  = chunk_count (len Samples.thousand) 600 (Z.max 1 (600 - 60))
  /\ (0 < len (str "abc") <= 4 -> chunk_text (str "abc") 4 1 = [str "abc"]).
Proof.
  split.
  - apply (chunk_text_count Samples.thousand 600 60); lia.
  - apply (chunk_text_count (str "abc") 4 1); lia.
Defined.

(** A slice of a slice is a slice. *)
Lemma py_slice_slice {A : Type} (l : list A) (a b x y : Z) :
  0 <= a <= b -> b <= len l -> 0 <= x <= y -> y <= b - a ->
  py_slice (py_slice l a b) x y = py_slice l (a + x) (a + y).
Proof.
  intros Hab Hb Hxy Hy.
  rewrite (py_slice_inside (py_slice l a b) x y)
    by (rewrite ?len_py_slice_inside; lia).
  rewrite (py_slice_inside l a b), (py_slice_inside l (a + x) (a + y)) by lia.
  rewrite skipn_firstn_comm, skipn_skipn, firstn_firstn.
  f_equal; [lia|f_equal; lia].
Qed.

(** X3.  For an overlap [0 <= o < w] two consecutive chunks share exactly
    [o] characters: the last [o] characters of a chunk are the first [o]
    characters of the next one. *)
Theorem chunk_overlap (t : text) (w o : Z) (i : nat) (c c' : text) :
  0 <= o < w ->
  nth_error (chunk_text t w o) i = Some c ->
  nth_error (chunk_text t w o) (S i) = Some c' ->
  py_slice c (w - o) w = py_slice c' 0 o
  /\ len (py_slice c' 0 o) = o.
Proof.
  intros Ho Hc Hc'. unfold chunk_text, chunk_text_fuel in *.
  destruct (Z.leb_spec w 0); [lia|].
  destruct (chunk_loop_shape (S (length t)) t w (Z.max 1 (w - o)) 0 []
              ltac:(lia) ltac:(lia) ltac:(unfold len; lia))
    as (k & Hrun & Hin & Hmid).
  rewrite Hrun in *. cbn [app] in *.
  replace (Z.max 1 (w - o)) with (w - o) in * by lia.
  apply nth_error_map_seq in Hc as [Hi ->].
  apply nth_error_map_seq in Hc' as [Hi' ->].
  specialize (Hmid i Hi'). specialize (Hin (S i) Hi').
  set (p := Z.of_nat i * (w - o)) in *.
  assert (Hp : 0 <= p) by (apply Z.mul_nonneg_nonneg; lia).
  replace (0 + Z.of_nat (S i) * (w - o)) with (p + (w - o)) in * by lia.
  replace (0 + p) with p in * by lia.
  unfold chunk_at. rewrite Z.min_r by lia.
  rewrite (py_slice_slice t p (p + w)) by lia.
  rewrite (py_slice_slice t (p + (w - o))) by lia.
  replace (p + (w - o) + 0) with (p + (w - o)) by lia.
  replace (p + (w - o) + o) with (p + w) by lia.
  split; [reflexivity|].
  rewrite len_py_slice_inside; lia.
Qed.

Lemma chunk_overlap_witness :
  py_slice (str "abcd") (4 - 1) 4 = py_slice (str "defg") 0 1
  /\ len (py_slice (str "defg") 0 1) = 1.
Proof.
  apply (chunk_overlap (str "abcdefghij") 4 1 0 (str "abcd") (str "defg")).
  - lia.
  - reflexivity.
  - reflexivity.
Defined.

End ChunkerShape.

(** ** ResultParser: what the candidates are *)

Module PatternFacts.
Import Patterns.

Lemma starts_with_app (p : text) : forall s rest,
  starts_with p s = Some rest -> s = p ++ rest.
Proof.
  induction p as [|a p IH]; intros [|b s] rest; cbn [starts_with app];
    try discriminate; try congruence.
  destruct (N.eqb_spec a b); [|discriminate].
  intros H. subst b. f_equal. now apply IH.
Qed.

Lemma starts_with_ignorecase_app (p : text) : forall s rest,
  starts_with_ignorecase p s = Some rest ->
  exists p', s = p' ++ rest /\ length p' = length p.
Proof.
  induction p as [|a p IH]; intros [|b s] rest;
    cbn [starts_with_ignorecase]; try discriminate.
  - intros [= <-]. now exists [].
  - intros [= <-]. now exists [].
  - destruct (ignorecase_eq a b); [|discriminate].
    intros H. destruct (IH s rest H) as (p' & -> & Hlen).
    exists (b :: p'). split; [reflexivity|]. cbn [length]. now rewrite Hlen.
Qed.

Lemma find_sub_app (p : text) (s : text) : forall before rest,
  find_sub p s = Some (before, rest) -> s = before ++ p ++ rest.
Proof.
  induction s as [|c s IH]; intros before rest; cbn [find_sub].
  - destruct (starts_with p []) eqn:E; [|discriminate].
    intros [= <- <-]. now apply starts_with_app in E.
  - destruct (starts_with p (c :: s)) eqn:E.
    + intros [= <- <-]. now apply starts_with_app in E.
    + destruct (find_sub p s) as [[b r]|] eqn:Ef; [|discriminate].
      intros [= <- <-]. cbn [app]. f_equal. now apply IH.
Qed.

(** The text before the first occurrence of a character does not hold
    it. *)
Lemma find_sub_first (c : char) (s : text) : forall before rest,
  find_sub [c] s = Some (before, rest) -> ~ In c before.
Proof.
  induction s as [|x s IH]; intros before rest; cbn [find_sub starts_with].
  - discriminate.
  - destruct (N.eqb_spec c x) as [->|Hne].
    + intros [= <- <-]. intros [].
    + destruct (find_sub [c] s) as [[b r]|] eqn:Ef; [|discriminate].
      intros [= <- <-] [Hx|Hin]; [congruence|]. eapply IH; eauto.
Qed.

Lemma drop_while_app (p : char -> bool) (s : text) :
  exists dropped, s = dropped ++ drop_while p s
                  /\ length dropped = (length s - length (drop_while p s))%nat.
Proof.
  induction s as [|c s (d & Hd & Hlen)]; cbn [drop_while].
  - now exists [].
  - destruct (p c).
    + exists (c :: d). cbn [app length]. split; [now f_equal|].
      assert (length (drop_while p s) <= length s)%nat.
      { rewrite Hd at 2. rewrite length_app. lia. }
      lia.
    + exists []. cbn [app length]. split; [reflexivity|lia].
Qed.

Lemma delimited_at_sound (o c : char) : match_sound (delimited_at o c).
Proof.
  intros [|x s] found span; cbn [delimited_at]; [discriminate|].
  destruct (x =? o)%N; [|discriminate].
  destruct (find_sub [c] s) as [[inner rest]|] eqn:E; [|discriminate].
  intros [= <- <-]. apply find_sub_app in E. subst s.
  split.
  - cbn [length]. rewrite !length_app. cbn [length]. lia.
  - exists [], []. rewrite app_nil_r. cbn [app].
    replace (length inner + 2)%nat with (S (length (inner ++ [c])))
      by (rewrite length_app; cbn [length]; lia).
    cbn [firstn]. f_equal.
    change (inner ++ c :: rest) with (inner ++ [c] ++ rest).
    rewrite (app_assoc inner [c] rest), firstn_app.
    rewrite Nat.sub_diag, firstn_all. cbn [firstn]. now rewrite app_nil_r.
Qed.

Lemma fence_at_sound : match_sound fence_at.
Proof.
  intros s found span. unfold fence_at.
  destruct (starts_with_ignorecase (str "```json") s) as [r|] eqn:Eo;
    [|discriminate].
  destruct (find_sub backticks (drop_while is_space r))
    as [[group rest]|] eqn:Ef; [|discriminate].
  intros [= <- <-].
  apply starts_with_ignorecase_app in Eo as (p' & -> & Hp').
  destruct (drop_while_app is_space r) as (ws & Hr & Hws).
  apply find_sub_app in Ef.
  change (length (str "```json")) with 7%nat in Hp'.
  rewrite <- Hws.
  set (body := drop_while is_space r) in *.
  assert (Hs : p' ++ r = (p' ++ ws ++ group ++ backticks) ++ rest).
  { rewrite Hr, Ef. now rewrite <- !app_assoc. }
  assert (Hspan : (7 + length ws + length group + 3)%nat
                  = length (p' ++ ws ++ group ++ backticks)).
  { rewrite !length_app, Hp'. cbn [backticks str length map
      list_ascii_of_string]. lia. }
  cbn [Nat.add] in Hspan.
  split.
  - split; [lia|].
    rewrite Hs, Hspan, (length_app (p' ++ ws ++ group ++ backticks) rest).
    lia.
  - exists (p' ++ ws), backticks.
    rewrite Hs, Hspan, firstn_app, Nat.sub_diag, firstn_all.
    cbn [firstn]. now rewrite app_nil_r, <- app_assoc.
Qed.

Lemma in_order_prepend (cands : list text) (a t : text) :
  in_order cands t -> in_order cands (a ++ t).
Proof.
  destruct cands as [|c rest]; cbn [in_order]; [trivial|].
  intros (pre & post & -> & Hrest).
  exists (a ++ pre), post. now rewrite <- app_assoc.
Qed.

Lemma findall_in_order (match_at : text -> option (text * nat)) :
  match_sound match_at ->
  forall s skip, in_order (findall match_at s skip) (skipn skip s).
Proof.
  intros Hsound. induction s as [|x s IH]; intros skip.
  - cbn [findall in_order]. trivial.
  - cbn [findall]. destruct skip as [|skip]; [|apply IH].
    cbn [skipn].
    destruct (match_at (x :: s)) as [[found span]|] eqn:E.
    + destruct (Hsound _ _ _ E) as ([Hpos Hle] & a & b & Hfirst).
      cbn [in_order]. exists a, (b ++ skipn span (x :: s)). split.
      * rewrite <- (firstn_skipn span (x :: s)) at 1.
        now rewrite Hfirst, <- !app_assoc.
      * apply in_order_prepend.
        destruct span as [|span]; [lia|]. cbn [pred skipn]. apply IH.
    + apply (in_order_prepend _ [x]). apply (IH 0%nat).
Qed.

(** Every item reported comes from a match at some position. *)
Lemma findall_In (match_at : text -> option (text * nat)) :
  forall s skip c,
    In c (findall match_at s skip) ->
    exists pre s' span, s = pre ++ s' /\ match_at s' = Some (c, span).
Proof.
  induction s as [|x s IH]; intros skip c; cbn [findall]; [intros []|].
  assert (Hlater : forall k, In c (findall match_at s k) ->
            exists pre s' span,
              x :: s = pre ++ s' /\ match_at s' = Some (c, span)).
  { intros k Hin. destruct (IH k c Hin) as (pre & s' & span & -> & Hm).
    now exists (x :: pre), s', span. }
  destruct skip as [|skip]; [|apply Hlater].
  destruct (match_at (x :: s)) as [[found span]|] eqn:E; [|apply Hlater].
  intros [<-|Hin]; [|eapply Hlater, Hin].
  now exists [], (x :: s), span.
Qed.

Lemma in_order_infix (cands : list text) : forall t c,
  in_order cands t -> In c cands -> exists pre post, t = pre ++ c ++ post.
Proof.
  induction cands as [|x cands IH]; intros t c; cbn [in_order]; [intros _ []|].
  intros (pre & post & -> & Hrest) [<-|Hin].
  - now exists pre, post.
  - destruct (IH post c Hrest Hin) as (pre' & post' & ->).
    exists (pre ++ x ++ pre'), post'. now rewrite <- !app_assoc.
Qed.

(** X4.  The candidates of each kind are fragments of the text that
    follow one another from left to right without sharing a character; in
    particular every candidate is a contiguous piece of the text. *)
Theorem candidates_in_order (t : text) :
  in_order (findall fence_at t 0) t
  /\ in_order (findall array_at t 0) t
  /\ in_order (findall object_at t 0) t
  /\ (forall c, In c (extract_json_candidates t) ->
                exists pre post, t = pre ++ c ++ post).
Proof.
  assert (Hf : in_order (findall fence_at t 0) t)
    by apply (findall_in_order fence_at fence_at_sound t 0).
  assert (Ha : in_order (findall array_at t 0) t)
    by apply (findall_in_order array_at (delimited_at_sound _ _) t 0).
  assert (Ho : in_order (findall object_at t 0) t)
    by apply (findall_in_order object_at (delimited_at_sound _ _) t 0).
  repeat split; try assumption.
  intros c Hin. unfold extract_json_candidates in Hin. cbn [app] in Hin.
  rewrite !in_app_iff in Hin.
  destruct Hin as [[Hin|Hin]|Hin].
  - exact (in_order_infix _ _ _ Hf Hin).
  - exact (in_order_infix _ _ _ Ha Hin).
  - exact (in_order_infix _ _ _ Ho Hin).
Qed.

Lemma delimited_at_shape (o c : char) (s found : text) (span : nat) :
  delimited_at o c s = Some (found, span) ->
  exists inner rest,
    s = o :: inner ++ c :: rest
    /\ found = o :: inner ++ [c] /\ ~ In c inner.
Proof.
  destruct s as [|x s]; cbn [delimited_at]; [discriminate|].
  destruct (N.eqb_spec x o) as [->|]; [|discriminate].
  destruct (find_sub [c] s) as [[inner rest]|] eqn:E; [|discriminate].
  intros [= <- <-]. exists inner, rest.
  pose proof (find_sub_first _ _ _ _ E) as Hfirst.
  apply find_sub_app in E. subst s. now repeat split.
Qed.

(** X5.  A bracketed candidate runs from a [[] to the first []] after it
    and a braced one from a [{] to the first [}]: the closing character
    occurs nowhere inside, so a candidate never spans a nested array or
    object. *)
Theorem delimited_candidate_shape (t c : text) :
  (In c (findall array_at t 0) ->
   exists inner, c = ch "[" :: inner ++ [ch "]"] /\ ~ In (ch "]") inner)
  /\ (In c (findall object_at t 0) ->
      exists inner, c = ch "{" :: inner ++ [ch "}"] /\ ~ In (ch "}") inner).
Proof.
  split; intros Hin;
    apply findall_In in Hin as (pre & s' & span & _ & Hm);
    apply delimited_at_shape in Hm as (inner & rest & _ & -> & Hfirst);
    now exists inner.
Qed.

Lemma delimited_candidate_shape_witness :
  let t := str "x [[1], [2]] y" in
  In (str "[[1]") (findall array_at t 0)
  /\ exists inner,
       str "[[1]" = ch "[" :: inner ++ [ch "]"] /\ ~ In (ch "]") inner.
Proof.
  intro t.
  assert (H : In (str "[[1]") (findall array_at t 0)) by (now left).
  split; [exact H|].
  exact (proj1 (delimited_candidate_shape t (str "[[1]")) H).
Defined.

Lemma starts_with_ignorecase_head (a : char) (p s rest : text) :
  starts_with_ignorecase (a :: p) s = Some rest ->
  exists b s', s = b :: s' /\ ignorecase_eq a b = true.
Proof.
  destruct s as [|b s']; cbn [starts_with_ignorecase]; [discriminate|].
  destruct (ignorecase_eq a b) eqn:E; [|discriminate].
  intros _. now exists b, s'.
Qed.

(** X6.  Without a backtick there is no fenced candidate, without a [[]
    or without a []] no bracketed one, without a [{] or without a [}] no
    braced one; a text with none of the three opening characters has no
    candidate at all, and the parser then returns what the direct parse
    returns. *)
Theorem no_delimiter_no_candidate (t : text) :
  (~ In (ch "`") t -> findall fence_at t 0 = [])
  /\ (~ In (ch "[") t \/ ~ In (ch "]") t -> findall array_at t 0 = [])
  /\ (~ In (ch "{") t \/ ~ In (ch "}") t -> findall object_at t 0 = [])
  /\ (~ In (ch "`") t -> ~ In (ch "[") t -> ~ In (ch "{") t ->
      extract_json_candidates t = []
      /\ forall {F : PyFloat} (loads : text -> result value),
           parse_rows loads t = safe_parse_rows loads t).
Proof.
  assert (Hnone : forall m, (forall c, ~ In c (findall m t 0)) ->
                            findall m t 0 = []).
  { intros m H. destruct (findall m t 0) as [|c l]; [reflexivity|].
    exfalso. apply (H c). now left. }
  assert (Hfence : ~ In (ch "`") t -> findall fence_at t 0 = []).
  { intros Hno. apply Hnone. intros c Hin.
    apply findall_In in Hin as (pre & s' & span & -> & Hm).
    unfold fence_at in Hm.
    destruct (starts_with_ignorecase (str "```json") s') as [r|] eqn:E;
      [|discriminate].
    apply starts_with_ignorecase_head in E as (b & s'' & -> & Hb).
    apply Hno, in_or_app. right. left.
    unfold ignorecase_eq in Hb. cbn in Hb.
    rewrite !orb_false_r in Hb. apply N.eqb_eq in Hb. now symmetry. }
  assert (Hdelim : forall o c,
             ~ In o t \/ ~ In c t -> findall (delimited_at o c) t 0 = []).
  { intros o c Hno. apply Hnone. intros x Hin.
    apply findall_In in Hin as (pre & s' & span & -> & Hm).
    apply delimited_at_shape in Hm as (inner & rest & -> & _ & _).
    destruct Hno as [Hno|Hno]; apply Hno.
    - apply in_or_app. right. now left.
    - apply in_or_app. right. right. apply in_or_app. right. now left. }
  split; [exact Hfence|]. split; [apply Hdelim|]. split; [apply Hdelim|].
  intros Hf Ha Ho.
  assert (Hc : extract_json_candidates t = []).
  { unfold extract_json_candidates. cbn [app].
    rewrite (Hfence Hf).
    unfold array_at, object_at.
    rewrite (Hdelim _ _ (or_introl Ha)), (Hdelim _ _ (or_introl Ho)).
    reflexivity. }
  split; [exact Hc|].
  intros F loads. unfold parse_rows. rewrite Hc.
  destruct (safe_parse_rows_returns loads t) as (rows & ->).
  cbn [bind first_rows]. now destruct rows.
Qed.

Lemma no_delimiter_no_candidate_witness :
  extract_json_candidates Samples.prose = []
  /\ parse_rows (JsonDecoder.loads (F := lexeme_float)) Samples.prose
     = safe_parse_rows JsonDecoder.loads Samples.prose.
Proof.
  destruct (proj2 (proj2 (proj2 (no_delimiter_no_candidate Samples.prose))))
    as (Hnone & Hsame).
  - vm_compute. intuition discriminate.
  - vm_compute. intuition discriminate.
  - vm_compute. intuition discriminate.
  - split; [exact Hnone|apply Hsame].
Defined.

End PatternFacts.

(** ** ResultParser: where rows come from *)

Section RowSources.
Context {F : PyFloat}.
Variable loads : text -> result value.

Lemma only_dicts_filter (items : list value) :
  map VDict (only_dicts items) = filter is_dict items.
Proof.
  induction items as [|x items IH]; [reflexivity|].
  destruct x; cbn [only_dicts filter is_dict map]; now rewrite ?IH.
Qed.

(** X7.  [safe_parse_rows] gives rows in two cases only: the text decodes
    to a list, or to an object holding a list under ["rows"].  In both the
    rows are the objects of that list, in their order; everything else in
    the list is dropped. *)
Theorem safe_parse_rows_sources (t : text) :
  (forall items, loads t = Ok (VList items) ->
                 safe_parse_rows loads t = Ok (only_dicts items))
  /\ (forall d items,
        loads t = Ok (VDict d) ->
        dict_get d rows_key = Some (VList items) ->
        safe_parse_rows loads t = Ok (only_dicts items))
  /\ (forall rows,
        safe_parse_rows loads t = Ok rows -> rows <> [] ->
        exists items,
          (loads t = Ok (VList items)
           \/ exists d, loads t = Ok (VDict d)
                        /\ dict_get d rows_key = Some (VList items))
          /\ map VDict rows = filter is_dict items).
Proof.
  unfold safe_parse_rows, safe_parse_rows_try. split; [|split].
  - intros items ->. reflexivity.
  - intros d items -> Hrows. cbn [bind].
    unfold dict_contains, dict_getitem. rewrite Hrows. reflexivity.
  - intros rows. destruct (loads t) as [parsed|e]; cbn [bind];
      [|intros [= <-]; congruence].
    destruct parsed as [| | | | |items|d]; try (intros [= <-]; congruence).
    + intros [= <-] _. exists items. split; [now left|].
      apply only_dicts_filter.
    + unfold dict_contains, dict_getitem.
      destruct (dict_get d rows_key) as [v|] eqn:Hget;
        [|intros [= <-]; congruence].
      cbn [bind]. destruct v; cbn [is_list iterate bind];
        try (intros [= <-]; congruence).
      intros [= <-] _. exists items. split; [|apply only_dicts_filter].
      right. now exists d.
Qed.

Lemma first_rows_inv (cands : list text) : forall rows,
  first_rows loads cands = Ok rows -> rows <> [] ->
  exists before c after,
    cands = before ++ c :: after
    /\ (forall b, In b before -> safe_parse_rows loads b = Ok [])
    /\ safe_parse_rows loads c = Ok rows.
Proof.
  induction cands as [|c cands IH]; intros rows; cbn [first_rows].
  - intros [= <-]. congruence.
  - destruct (safe_parse_rows_returns loads c) as (r & Hr). rewrite Hr.
    cbn [bind]. destruct r as [|x r]; cbn [truthy].
    + intros Hrest Hne.
      destruct (IH rows Hrest Hne) as (before & c' & after & -> & Hb & Hc).
      exists (c :: before), c', after. split; [reflexivity|].
      split; [|exact Hc]. intros b [<-|Hin]; [exact Hr|now apply Hb].
    + intros [= <-] _. exists [], c, cands. split; [reflexivity|].
      split; [intros b []|exact Hr].
Qed.

(** X8.  Rows found by the direct parse are returned as they are, whatever
    the candidates hold.  Rows returned by the parser come from the direct
    parse or, when that gave none, from the first candidate that gives
    any: the parser never mixes the rows of two fragments. *)
Theorem parse_rows_sources (t : text) (rows : list dict) :
  rows <> [] ->
  (safe_parse_rows loads t = Ok rows -> parse_rows loads t = Ok rows)
  /\ (parse_rows loads t = Ok rows ->
      safe_parse_rows loads t = Ok rows
      \/ (safe_parse_rows loads t = Ok []
          /\ exists before c after,
               extract_json_candidates t = before ++ c :: after
               /\ (forall b, In b before -> safe_parse_rows loads b = Ok [])
               /\ safe_parse_rows loads c = Ok rows)).
Proof.
  intros Hne. unfold parse_rows. split.
  - intros ->. cbn [bind]. destruct rows; [congruence|reflexivity].
  - destruct (safe_parse_rows_returns loads t) as (r & ->). cbn [bind].
    destruct r as [|x r]; cbn [truthy].
    + intros Hfirst. right. split; [reflexivity|].
      now apply first_rows_inv.
    + intros [= <-]. now left.
Qed.

End RowSources.

Lemma safe_parse_rows_sources_witness :
  let loads := JsonDecoder.loads (F := lexeme_float) in
  safe_parse_rows loads Samples.array_a1 = Ok (only_dicts [VDict Samples.row_a1])
  /\ exists items,
       (loads Samples.array_a1 = Ok (VList items)
        \/ exists d, loads Samples.array_a1 = Ok (VDict d)
                     /\ dict_get d rows_key = Some (VList items))
       /\ map VDict [Samples.row_a1] = filter is_dict items.
Proof.
  intro loads.
  destruct (safe_parse_rows_sources loads Samples.array_a1)
    as (Hlist & _ & Hinv).
  split.
  - apply Hlist. vm_compute. reflexivity.
  - apply Hinv; [vm_compute; reflexivity|discriminate].
Defined.

Lemma parse_rows_sources_witness :
  let loads := JsonDecoder.loads (F := lexeme_float) in
  parse_rows loads Samples.array_a1 = Ok [Samples.row_a1]
  /\ (safe_parse_rows loads Samples.fenced_answer = Ok [Samples.row_a1]
      \/ (safe_parse_rows loads Samples.fenced_answer = Ok []
          /\ exists before c after,
               extract_json_candidates Samples.fenced_answer
               = before ++ c :: after
               /\ (forall b, In b before -> safe_parse_rows loads b = Ok [])
               /\ safe_parse_rows loads c = Ok [Samples.row_a1])).
Proof.
  intro loads. split.
  - apply (parse_rows_sources loads Samples.array_a1 [Samples.row_a1]);
      [discriminate|vm_compute; reflexivity].
  - apply (parse_rows_sources loads Samples.fenced_answer [Samples.row_a1]);
      [discriminate|vm_compute; reflexivity].
Defined.

(** ** The model call *)

Section CallFacts.
Context {F : PyFloat} {World : Type}.
Variable env : Collaborators World.

Lemma chat_requests_app (a b : list event) :
  chat_requests (a ++ b) = chat_requests a ++ chat_requests b.
Proof.
  induction a as [|[u|chunk|r] a IH]; cbn [app chat_requests];
    rewrite ?IH; reflexivity.
Qed.

(** [call_openai_extract] in state-passing form. *)
Lemma call_openai_extract_unfold chunk q m temp jm (st : state) :
  call_openai_extract env chunk q m temp jm st
  = let tr := trace st ++ [Extract chunk] in
    if negb (truthy (OPENAI_API_KEY env))
    then ([], {| world := world st; trace := tr |})
    else
      let client := openai_client env (OPENAI_API_KEY env) (world st) in
      match fst client with
      | Raise _ => ([], {| world := snd client; trace := tr |})
      | Ok _ =>
          let first := first_request chunk q m temp jm in
          let a1 := chat_completions_create env first (snd client) in
          match fst a1 with
          | Ok content =>
              (rows_of_content env content,
               {| world := snd a1; trace := tr ++ [Chat first] |})
          | Raise _ =>
              let fallback := fallback_request chunk q m temp in
              let a2 := chat_completions_create env fallback (snd a1) in
              (match fst a2 with
               | Ok content => rows_of_content env content
               | Raise _ => []
               end,
               {| world := snd a2;
                  trace := (tr ++ [Chat first]) ++ [Chat fallback] |})
          end
      end.
Proof.
  unfold call_openai_extract, chat, first_request, fallback_request,
    rows_of_content.
  unfold mbind, log, outside, ret. cbv zeta.
  destruct (truthy (OPENAI_API_KEY env)); cbn [negb world trace];
    [|reflexivity].
  destruct (openai_client env (OPENAI_API_KEY env) (world st))
    as [[[]|e] w1]; cbn [fst snd world trace]; [|reflexivity].
  match goal with
  | |- context [chat_completions_create env ?r w1] =>
      destruct (chat_completions_create env r w1) as [[content|e1] w2]
  end; cbn [fst snd world trace].
  - destruct (parse_rows (json_loads env) (content_or_empty content));
      reflexivity.
  - match goal with
    | |- context [chat_completions_create env ?r w2] =>
        destruct (chat_completions_create env r w2) as [[content|e2] w3]
    end; cbn [fst snd world trace]; [|reflexivity].
    destruct (parse_rows (json_loads env) (content_or_empty content));
      reflexivity.
Qed.

(** X9.  One call of [call_openai_extract] makes at most two completion
    requests: the first with the response format [json_mode] asks for and,
    only when that one raised, the same request without a response format.
    A call that makes no request returns no rows, and without an API key
    the call asks nothing of the outside. *)
Theorem completion_requests chunk q m temp jm (st : state) :
  let out := call_openai_extract env chunk q m temp jm st in
  let asked := chat_requests (trace (snd out)) in
  let before := chat_requests (trace st) in
  let first := first_request chunk q m temp jm in
  let fallback := fallback_request chunk q m temp in
  (asked = before
   \/ asked = before ++ [first]
   \/ asked = before ++ [first; fallback])
  /\ (asked = before ++ [first; fallback] ->
      exists e,
        fst (chat_completions_create env first
               (snd (openai_client env (OPENAI_API_KEY env) (world st))))
        = Raise e)
  /\ (asked = before -> fst out = [])
  /\ (OPENAI_API_KEY env = [] -> asked = before /\ world (snd out) = world st).
Proof.
  intros out asked before first fallback.
  assert (Hone : before ++ [first] <> before).
  { intros H. apply (f_equal (@length _)) in H.
    rewrite length_app in H. cbn [length] in H. lia. }
  assert (Htwo : before ++ [first; fallback] <> before).
  { intros H. apply (f_equal (@length _)) in H.
    rewrite length_app in H. cbn [length] in H. lia. }
  assert (Hdiff : before ++ [first] <> before ++ [first; fallback]).
  { intros H. apply app_inv_head in H. discriminate. }
  subst out asked. rewrite call_openai_extract_unfold. cbv zeta.
  fold first fallback.
  destruct (OPENAI_API_KEY env) as [|k key] eqn:Hkey; cbn [truthy negb].
  { cbn [fst snd trace world]. rewrite chat_requests_app.
    cbn [chat_requests]. rewrite app_nil_r. fold before.
    repeat split; auto; try congruence. }
  destruct (openai_client env (k :: key) (world st)) as [[[]|e] w1];
    cbn [fst snd].
  2: { cbn [trace world]. rewrite chat_requests_app.
       cbn [chat_requests]. rewrite app_nil_r. fold before.
       repeat split; auto; try congruence; discriminate. }
  destruct (chat_completions_create env first w1) as [[content|e1] w2];
    cbn [fst snd trace world].
  - rewrite !chat_requests_app. cbn [chat_requests].
    rewrite app_nil_r. fold before.
    repeat split; auto; try congruence; discriminate.
  - rewrite !chat_requests_app. cbn [chat_requests].
    rewrite app_nil_r, <- app_assoc. cbn [app]. fold before.
    repeat split; auto; try congruence; try discriminate.
    intros _. now exists e1.
Qed.

Lemma py_slice_head {A : Type} (l : list A) (b : Z) :
  0 <= b -> py_slice l 0 b = firstn (Z.to_nat b) l.
Proof.
  intros Hb. unfold py_slice, clamp_index.
  pose proof (len_nonneg l).
  destruct (Z.ltb_spec 0 0); [lia|].
  destruct (Z.ltb_spec b 0); [lia|].
  replace (Z.min 0 (len l)) with 0 by lia.
  cbn [Z.to_nat skipn]. rewrite Z.sub_0_r.
  destruct (Z.le_ge_cases b (len l)).
  - now rewrite Z.min_l by lia.
  - rewrite Z.min_r by lia. unfold len in *.
    rewrite Nat2Z.id, firstn_all. symmetry. apply firstn_all2. lia.
Qed.

Lemma user_prompt_truncated (chunk q : text) :
  user_prompt chunk q = user_prompt (py_slice chunk 0 8000) q.
Proof.
  unfold user_prompt. rewrite !py_slice_head by lia.
  now rewrite firstn_firstn, Nat.min_id.
Qed.

Lemma chat_messages_truncated (chunk q : text) :
  chat_messages chunk q = chat_messages (py_slice chunk 0 8000) q.
Proof. unfold chat_messages. now rewrite <- user_prompt_truncated. Qed.

(** Two chunks with the same messages are the same to the call, up to
    the chunk named in the trace. *)
Lemma call_openai_extract_messages c1 c2 q m temp jm (st : state) :
  chat_messages c1 q = chat_messages c2 q ->
  fst (call_openai_extract env c1 q m temp jm st)
  = fst (call_openai_extract env c2 q m temp jm st)
  /\ world (snd (call_openai_extract env c1 q m temp jm st))
     = world (snd (call_openai_extract env c2 q m temp jm st))
  /\ chat_requests (trace (snd (call_openai_extract env c1 q m temp jm st)))
     = chat_requests (trace (snd (call_openai_extract env c2 q m temp jm st))).
Proof.
  intros Hmsg. rewrite !call_openai_extract_unfold. cbv zeta.
  unfold first_request, fallback_request. rewrite Hmsg.
  destruct (truthy (OPENAI_API_KEY env)); cbn [negb];
    [|cbn [fst snd world trace]; rewrite !chat_requests_app; auto].
  destruct (openai_client env (OPENAI_API_KEY env) (world st))
    as [[[]|e] w1]; cbn [fst snd];
    [|cbn [world trace]; rewrite !chat_requests_app; auto].
  match goal with
  | |- context [chat_completions_create env ?r w1] =>
      destruct (chat_completions_create env r w1) as [[content|e1] w2]
  end; cbn [fst snd world trace];
    rewrite !chat_requests_app; cbn [chat_requests]; auto.
Qed.

(** X10.  Only the first 8000 characters of a chunk reach the model: the
    prompt, the rows returned, the world left behind and the requests made
    are those of the call on the chunk cut to 8000 characters, and the
    user prompt has 75 characters besides the query and that part of the
    chunk. *)
Theorem prompt_truncation chunk q m temp jm (st : state) :
  let short := py_slice chunk 0 8000 in
  let out := call_openai_extract env chunk q m temp jm st in
  let out' := call_openai_extract env short q m temp jm st in
  user_prompt chunk q = user_prompt short q
  /\ len (user_prompt chunk q) = 75 + len q + Z.min (len chunk) 8000
  /\ fst out = fst out'
  /\ world (snd out) = world (snd out')
  /\ chat_requests (trace (snd out)) = chat_requests (trace (snd out')).
Proof.
  intros short out out'.
  pose proof (chat_messages_truncated chunk q) as Hmsg. fold short in Hmsg.
  split; [|split].
  - apply user_prompt_truncated.
  - unfold user_prompt, len. rewrite !length_app, py_slice_head by lia.
    rewrite length_firstn. cbn [str length map list_ascii_of_string].
    lia.
  - now apply call_openai_extract_messages.
Qed.

End CallFacts.

Lemma completion_requests_witness :
  let env := Scripted.env_with_key [] in
  let q := str "widgets" in
  let m := str "gpt-4o-mini" in
  let temp := @float_of_text Scripted.floats (str "0.1") in
  let out := call_openai_extract env Scripted.page q m temp true Scripted.start
  in
  OPENAI_API_KEY env = []
  /\ chat_requests (trace (snd out)) = chat_requests (trace Scripted.start)
  /\ world (snd out) = world Scripted.start
  /\ fst out = [].
Proof.
  intros env q m temp out.
  destruct (completion_requests env Scripted.page q m temp true Scripted.start)
    as (_ & _ & Hnone & Hkey).
  destruct (Hkey eq_refl) as [Hasked Hworld].
  split; [reflexivity|]. split; [exact Hasked|]. split; [exact Hworld|].
  exact (Hnone Hasked).
Defined.

(** ** RowDeduplicator: deduplicating step by step *)

Section DedupeSteps.
Context {F : PyFloat}.

Lemma first_occurrences_app (l1 : list dict) : forall before l2,
  first_occurrences before (l1 ++ l2)
  = first_occurrences before l1 ++ first_occurrences (before ++ l1) l2.
Proof.
  induction l1 as [|x l1 IH]; intros before l2; cbn [app first_occurrences].
  - now rewrite app_nil_r.
  - rewrite IH, <- app_assoc. cbn [app].
    now destruct (existsb (same_row x) before).
Qed.

(** Only the keys of the rows already passed matter. *)
Lemma first_occurrences_ext (l : list dict) : forall b1 b2,
  (forall r, existsb (same_row r) b1 = existsb (same_row r) b2) ->
  first_occurrences b1 l = first_occurrences b2 l.
Proof.
  induction l as [|x l IH]; intros b1 b2 Hsame; cbn [first_occurrences];
    [reflexivity|].
  rewrite (Hsame x), (IH (b1 ++ [x]) (b2 ++ [x])); [reflexivity|].
  intros r. now rewrite !existsb_app, Hsame.
Qed.

Lemma same_row_trans (a b c : dict) :
  same_row a b = true -> same_row b c = true -> same_row a c = true.
Proof. rewrite !same_row_eq. congruence. Qed.

Lemma existsb_same_row_key (r x : dict) (l : list dict) :
  same_row r x = true ->
  existsb (same_row x) l = true -> existsb (same_row r) l = true.
Proof.
  intros Hrx Hx. apply existsb_exists in Hx as (y & Hin & Hxy).
  apply existsb_exists. exists y. split; [exact Hin|].
  eapply same_row_trans; eauto.
Qed.

(** The rows kept have the keys of the rows scanned. *)
Lemma first_occurrences_keys (a : list dict) : forall before r,
  existsb (same_row r) (before ++ first_occurrences before a)
  = existsb (same_row r) (before ++ a).
Proof.
  induction a as [|x a IH]; intros before r; cbn [first_occurrences];
    [reflexivity|].
  specialize (IH (before ++ [x]) r). rewrite <- !app_assoc in IH.
  cbn [app] in IH.
  destruct (existsb (same_row x) before) eqn:Ex; [|exact IH].
  rewrite <- IH, !existsb_app. cbn [existsb].
  destruct (same_row r x) eqn:Erx; [|reflexivity].
  now rewrite (existsb_same_row_key r x before Erx Ex).
Qed.

(** X11.  Deduplicating in steps is deduplicating at once:
    [dedupe_rows(dedupe_rows(a) + b)] is [dedupe_rows(a + b)].  The rows
    kept from [a] stay at the front in their order, the rows added come
    from [b], and the result is never longer than the input. *)
Theorem dedupe_rows_incremental (a b : list dict) :
  dedupe_rows (dedupe_rows a ++ b) = dedupe_rows (a ++ b)
  /\ (exists added,
        dedupe_rows (a ++ b) = dedupe_rows a ++ added
        /\ forall r, In r added -> In r b)
  /\ len (dedupe_rows a) <= len a.
Proof.
  rewrite !dedupe_rows_first_occurrences, !first_occurrences_app.
  cbn [app]. split; [|split].
  - rewrite (first_occurrences_id (first_occurrences [] a) [])
      by (apply first_occurrences_nodup || reflexivity).
    f_equal. apply first_occurrences_ext. intros r.
    apply (first_occurrences_keys a [] r).
  - exists (first_occurrences a b). split; [reflexivity|].
    intros r. apply first_occurrences_incl.
  - assert (H : forall l before,
               (length (first_occurrences before l) <= length l)%nat).
    { induction l as [|x l IH]; intros before; cbn [first_occurrences length];
        [lia|].
      specialize (IH (before ++ [x])).
      destruct (existsb (same_row x) before); cbn [length]; lia. }
    unfold len. specialize (H a []). lia.
Qed.

End DedupeSteps.

(** ** ExtractionOrchestrator: the accumulator *)

Section AccumulatorFacts.
Context {F : PyFloat} {World : Type}.
Variable env : Collaborators World.

(** Merging the rows of a chunk keeps the rows already accumulated where
    they are and leaves no duplicate. *)
Lemma accumulate_extends (accumulated new_rows : list dict) :
  NoDup (map row_key accumulated) ->
  NoDup (map row_key (accumulate accumulated new_rows))
  /\ exists added,
       accumulate accumulated new_rows = accumulated ++ added
       /\ forall r, In r added -> In r new_rows.
Proof.
  intros Hnodup. unfold accumulate.
  destruct new_rows as [|x new_rows]; cbn [truthy].
  - split; [exact Hnodup|]. exists []. now rewrite app_nil_r.
  - split; [rewrite dedupe_rows_first_occurrences;
            apply first_occurrences_nodup|].
    rewrite dedupe_rows_first_occurrences, first_occurrences_app.
    rewrite (first_occurrences_id accumulated []) by (assumption || reflexivity).
    exists (first_occurrences ([] ++ accumulated) (x :: new_rows)).
    split; [reflexivity|]. intros r. apply first_occurrences_incl.
Qed.

Lemma extract_chunks_extends req target (chunks : list text) :
  forall accumulated (st : state),
    NoDup (map row_key accumulated) ->
    NoDup (map row_key
             (fst (extract_chunks env req target chunks accumulated st)))
    /\ exists added,
         fst (extract_chunks env req target chunks accumulated st)
         = accumulated ++ added.
Proof.
  induction chunks as [|chunk rest IH]; intros accumulated st Hnodup.
  - cbn. split; [exact Hnodup|]. exists []. now rewrite app_nil_r.
  - rewrite extract_chunks_cons.
    destruct (extract_chunk env req chunk st) as [new_rows st1]. cbv zeta.
    destruct (accumulate_extends accumulated new_rows Hnodup)
      as (Hnodup' & added & Hadded & _).
    destruct (len (accumulate accumulated new_rows) >=? target).
    + cbn [fst]. split; [exact Hnodup'|]. now exists added.
    + destruct (IH (accumulate accumulated new_rows) st1 Hnodup')
        as (Hres & added' & Hadded').
      split; [exact Hres|]. exists (added ++ added').
      now rewrite Hadded', Hadded, app_assoc.
Qed.

Lemma extract_url_distinct req target u (st : state) :
  NoDup (map row_key (rows (fst (extract_url env req target u st)))).
Proof.
  rewrite extract_url_unfold.
  destruct (truthy_html _) as [page|]; [|constructor].
  pose proof (extract_chunks_extends req target (page_chunks env req page) []
                (fetched_state env u st) (NoDup_nil _)) as [Hnodup _].
  destruct (extract_chunks _ _ _ _ _ _). exact Hnodup.
Qed.

Lemma extract_urls_distinct req target (us : list text) : forall (st : state),
  Forall (fun page => NoDup (map row_key (rows page)))
         (fst (extract_urls env req target us [] st)).
Proof.
  induction us as [|u rest IH]; intros st.
  - constructor.
  - rewrite extract_urls_cons.
    pose proof (extract_url_distinct req target u st) as Hpage.
    destruct (extract_url env req target u st) as [page st1].
    rewrite extract_urls_results. cbn [fst app] in *.
    constructor; [exact Hpage|apply IH].
Qed.

(** X12.  The accumulator of a URL only grows: the rows gathered from the
    earlier chunks stay at the front, in their order, when a later chunk
    is merged, and it never holds two rows with the same serialization.
    Hence no PageResult of a response lists a row twice. *)
Theorem accumulator_grows_without_duplicates :
  (forall req target chunks accumulated (st : state),
      NoDup (map row_key accumulated) ->
      NoDup (map row_key
               (fst (extract_chunks env req target chunks accumulated st)))
      /\ exists added,
           fst (extract_chunks env req target chunks accumulated st)
           = accumulated ++ added)
  /\ (forall req (st : state) page,
        In page (results (fst (extract env req st))) ->
        NoDup (map row_key (rows page))).
Proof.
  split.
  - intros req target chunks accumulated st.
    apply extract_chunks_extends.
  - intros req st page. unfold extract.
    destruct (negb (truthy (urls req))); [intros []|].
    destruct (negb (text_eqb _ _)); [intros []|].
    destruct (negb (truthy (OPENAI_API_KEY env))); [intros []|].
    unfold mbind, ret.
    pose proof (extract_urls_distinct req
                  (per_url_target (target_rows req) (len (urls req)))
                  (urls req) st) as Hall.
    destruct (extract_urls _ _ _ _ _ _) as [pages st']. cbn [fst results] in *.
    intros Hin. rewrite Forall_forall in Hall. now apply Hall.
Qed.

End AccumulatorFacts.

Lemma accumulator_grows_without_duplicates_witness :
  let env := Scripted.env in
  let req := Scripted.request [Scripted.long] 25 (str "openai") in
  NoDup (map row_key
           (fst (extract_chunks env req 25
                   (page_chunks env req Scripted.long_page)
                   [Samples.row_ab] Scripted.start)))
  /\ exists added,
       fst (extract_chunks env req 25
              (page_chunks env req Scripted.long_page)
              [Samples.row_ab] Scripted.start)
       = [Samples.row_ab] ++ added.
Proof.
  intros env req.
  apply (proj1 (accumulator_grows_without_duplicates env)).
  repeat constructor. intros [].
Defined.

(** ** ExtractionOrchestrator: what reaches the model *)

Section ReachFacts.
Context {F : PyFloat} {World : Type}.
Variable env : Collaborators World.

(** The call sees the world, not the trace. *)
Lemma call_openai_extract_world chunk q m temp jm (st st' : state) :
  world st = world st' ->
  fst (call_openai_extract env chunk q m temp jm st)
  = fst (call_openai_extract env chunk q m temp jm st')
  /\ world (snd (call_openai_extract env chunk q m temp jm st))
     = world (snd (call_openai_extract env chunk q m temp jm st')).
Proof.
  intros Hw. rewrite !call_openai_extract_unfold. cbv zeta. rewrite Hw.
  destruct (truthy (OPENAI_API_KEY env)); cbn [negb]; [|now split].
  destruct (openai_client env (OPENAI_API_KEY env) (world st'))
    as [[[]|e] w1]; cbn [fst snd]; [|now split].
  match goal with
  | |- context [chat_completions_create env ?r w1] =>
      destruct (chat_completions_create env r w1) as [[content|e1] w2]
  end; cbn [fst snd world]; now split.
Qed.

Lemma extract_chunk_truncated req chunk (st st' : state) :
  world st = world st' ->
  fst (extract_chunk env req chunk st)
  = fst (extract_chunk env req (py_slice chunk 0 8000) st')
  /\ world (snd (extract_chunk env req chunk st))
     = world (snd (extract_chunk env req (py_slice chunk 0 8000) st')).
Proof.
  intros Hw. unfold extract_chunk.
  destruct (call_openai_extract_messages env chunk (py_slice chunk 0 8000)
              (query req) (text_or (model (llm req)) (DEFAULT_MODEL env))
              (temperature (llm req)) (json_mode (llm req)) st
              (chat_messages_truncated chunk (query req)))
    as (Hrows & Hworld & _).
  destruct (call_openai_extract_world (py_slice chunk 0 8000) (query req)
              (text_or (model (llm req)) (DEFAULT_MODEL env))
              (temperature (llm req)) (json_mode (llm req)) st st' Hw)
    as (Hrows' & Hworld').
  split; congruence.
Qed.

(** X13.  The rows accumulated for a page and the world left behind are
    those of the same loop run on the chunks cut to their first 8000
    characters: what a chunk holds beyond them has no part in the
    result. *)
Theorem extract_chunks_truncated req target (chunks : list text) :
  forall accumulated (st st' : state),
    world st = world st' ->
    fst (extract_chunks env req target chunks accumulated st)
    = fst (extract_chunks env req target
                          (map (fun c => py_slice c 0 8000) chunks)
                          accumulated st')
    /\ world (snd (extract_chunks env req target chunks accumulated st))
       = world (snd (extract_chunks env req target
                                    (map (fun c => py_slice c 0 8000) chunks)
                                    accumulated st')).
Proof.
  induction chunks as [|chunk rest IH]; intros accumulated st st' Hw.
  - cbn. now split.
  - cbn [map]. rewrite !extract_chunks_cons.
    destruct (extract_chunk_truncated req chunk st st' Hw) as (Hrows & Hworld).
    destruct (extract_chunk env req chunk st) as [new_rows st1].
    destruct (extract_chunk env req (py_slice chunk 0 8000) st')
      as [new_rows' st1'].
    cbn [fst snd] in *. subst new_rows'. cbv zeta.
    destruct (len (accumulate accumulated new_rows) >=? target).
    + now split.
    + now apply IH.
Qed.

(** X14.  For a valid request with a window of at most 800 nothing is cut:
    every chunk of a page has at most 8000 characters and enters the
    prompt whole. *)
Theorem small_window_chunks_whole req page (c : text) :
  valid_request req ->
  window_size (chunking req) <= 800 ->
  In c (page_chunks env req page) ->
  len c <= 8000 /\ py_slice c 0 8000 = c.
Proof.
  intros (Hwin & _ & _) Hsmall Hin. unfold page_chunks in Hin.
  apply ChunkerShape.chunk_len_le in Hin; [|lia].
  split; [lia|].
  rewrite py_slice_head by lia. apply firstn_all2. unfold len in *. lia.
Qed.

End ReachFacts.

Lemma extract_chunks_truncated_witness :
  let env := Scripted.env in
  let req := Scripted.request [Scripted.long] 25 (str "openai") in
  let chunks := page_chunks env req Scripted.long_page in
  fst (extract_chunks env req 25 chunks [] Scripted.start)
  = fst (extract_chunks env req 25 (map (fun c => py_slice c 0 8000) chunks)
                        [] Scripted.start).
Proof.
  intros env req chunks.
  apply (extract_chunks_truncated env req 25 chunks [] Scripted.start
                                  Scripted.start eq_refl).
Defined.

Lemma small_window_chunks_whole_witness :
  let env := Scripted.env in
  let req := Scripted.request [Scripted.long] 25 (str "openai") in
  let c := hd [] (page_chunks env req Scripted.long_page) in
  len c <= 8000 /\ py_slice c 0 8000 = c.
Proof.
  intros env req c.
  apply (small_window_chunks_whole env req Scripted.long_page c).
  - unfold valid_request. cbn. lia.
  - cbn. lia.
  - vm_compute. left. reflexivity.
Defined.

(** ** ExtractionOrchestrator: targets, chunks and calls of a request *)

Section RequestFacts.
Context {F : PyFloat} {World : Type}.
Variable env : Collaborators World.


Lemma extract_url_calls req target u page (st : state) :
  truthy_html (html (fst (fetch_url env u (world st)))) = Some page ->
  exists sent skipped,
    page_chunks env req page = sent ++ skipped
    /\ extraction_calls (trace (snd (extract_url env req target u st)))
       = extraction_calls (trace st) ++ sent.
Proof.
  intros Hpage. rewrite extract_url_unfold, Hpage.
  destruct (extract_chunks_calls env req target (page_chunks env req page) []
              (fetched_state env u st))
    as (sent & skipped & Hsplit & Hcalls & _).
  exists sent, skipped. split; [exact Hsplit|].
  destruct (extract_chunks _ _ _ _ _ _) as [accumulated st']. cbn [snd] in *.
  rewrite Hcalls. unfold fetched_state. cbn [trace].
  rewrite extraction_calls_app. cbn [extraction_calls].
  now rewrite app_nil_r.
Qed.

(** The chunks of a page for a valid request. *)
Lemma page_chunks_layout req page :
  valid_request req ->
  let t := clean_html_to_text env page in
  let w := window_size (chunking req) * 10 in
  let s := Z.max 1 (w - overlap (chunking req) * 10) in
  0 < w /\ 1 <= s /\ s <= w
  /\ exists k : nat,
       page_chunks env req page
       = map (Chunker.chunk_at t w) (Chunker.chunk_starts s k)
       /\ Chunker.layout t w s 0 k.
Proof.
  intros (Hwin & Hover & _) t w s.
  assert (Hw : 0 < w) by (subst w; lia).
  assert (Ho : 0 <= overlap (chunking req) * 10) by lia.
  split; [exact Hw|]. split; [subst s; lia|]. split; [subst s; lia|].
  apply (ChunkerFacts.chunk_text_layout t w _ Hw Ho).
Qed.

Lemma page_chunks_count req page :
  valid_request req ->
  len (page_chunks env req page)
  = chunk_count (len (clean_html_to_text env page))
                (window_size (chunking req) * 10)
                (Z.max 1 (window_size (chunking req) * 10
                          - overlap (chunking req) * 10)).
Proof.
  intros Hvalid.
  destruct (page_chunks_layout req page Hvalid)
    as (Hw & Hs & _ & k & Hk & Hlay).
  rewrite Hk, ChunkerShape.len_chunks_at.
  now apply ChunkerShape.layout_count.
Qed.

(** X16.  For a valid request the chunks of a page cover its cleaned text
    (their non-overlapping portions give it back), their number is
    [chunk_count] of its length for a window of ten times [window_size]
    and an overlap of ten times [overlap], and the extraction calls made
    for the URL are calls on an initial segment of these chunks, so never
    more than that number. *)
Theorem valid_request_chunks req page :
  valid_request req ->
  let t := clean_html_to_text env page in
  let w := window_size (chunking req) * 10 in
  let s := Z.max 1 (w - overlap (chunking req) * 10) in
  Chunker.nonoverlapping s (page_chunks env req page) = t
  /\ len (page_chunks env req page) = chunk_count (len t) w s
  /\ forall target u (st : state),
       truthy_html (html (fst (fetch_url env u (world st)))) = Some page ->
       exists sent skipped,
         page_chunks env req page = sent ++ skipped
         /\ extraction_calls (trace (snd (extract_url env req target u st)))
            = extraction_calls (trace st) ++ sent
         /\ len sent <= chunk_count (len t) w s.
Proof.
  intros Hvalid t w s.
  pose proof (page_chunks_count req page Hvalid) as Hcount.
  fold t w s in Hcount.
  destruct (page_chunks_layout req page Hvalid)
    as (Hw & Hs & Hsw & k & Hk & Hlay).
  fold t w s in Hk, Hlay.
  split; [|split; [exact Hcount|]].
  - rewrite Hk, <- ChunkerFacts.chunk_starts_from_zero.
    now apply (ChunkerFacts.nonoverlapping_layout k t w s 0).
  - intros target u st Hpage.
    destruct (extract_url_calls req target u page st Hpage)
      as (sent & skipped & Hsplit & Hcalls).
    exists sent, skipped. split; [exact Hsplit|]. split; [exact Hcalls|].
    rewrite <- Hcount, Hsplit. unfold len. rewrite length_app. lia.
Qed.

(** X17.  The bounds of the request model admit an overlap as large as
    the window or larger.  The chunks then advance by one character: a
    page whose cleaned text has [n > 0] characters gives one chunk, and
    one more for every character beyond ten times [window_size]. *)
Theorem overlap_beyond_window req page :
  valid_request req ->
  window_size (chunking req) <= overlap (chunking req) ->
  let t := clean_html_to_text env page in
  0 < len t ->
  len (page_chunks env req page)
  = 1 + Z.max 0 (len t - window_size (chunking req) * 10).
Proof.
  intros Hvalid Hover t Hn.
  rewrite (page_chunks_count req page Hvalid). fold t.
  replace (Z.max 1 (window_size (chunking req) * 10
                    - overlap (chunking req) * 10)) with 1 by lia.
  unfold chunk_count. destruct (Z.leb_spec (len t) 0); [lia|].
  now rewrite Z.add_simpl_r, Z.div_1_r.
Qed.

End RequestFacts.


Lemma valid_request_chunks_witness :
  let env := Scripted.env in
  let req := Scripted.request [Scripted.long] 25 (str "openai") in
  valid_request req
  /\ Chunker.nonoverlapping (Z.max 1 (600 * 10 - 60 * 10))
       (page_chunks env req Scripted.long_page)
     = Scripted.long_page
  /\ len (page_chunks env req Scripted.long_page)
     = chunk_count (len Scripted.long_page) (600 * 10)
                   (Z.max 1 (600 * 10 - 60 * 10)).
Proof.
  intros env req.
  assert (Hvalid : valid_request req) by (unfold valid_request; cbn; lia).
  destruct (valid_request_chunks env req Scripted.long_page Hvalid)
    as (Hcover & Hcount & _).
  split; [exact Hvalid|]. split; [exact Hcover|exact Hcount].
Defined.

Lemma overlap_beyond_window_witness :
  valid_request dense_request
  /\ len (page_chunks Scripted.env dense_request dense_page)
     = 1 + Z.max 0 (len dense_page - 200 * 10).
Proof.
  assert (Hvalid : valid_request dense_request)
    by (unfold valid_request; cbn; lia).
  split; [exact Hvalid|].
  apply (overlap_beyond_window Scripted.env dense_request dense_page Hvalid).
  - cbn. lia.
  - reflexivity.
Defined.

(** ** ExtractionOrchestrator: one URL after the other *)

Section TurnFacts.
Context {F : PyFloat} {World : Type}.
Variable env : Collaborators World.

Lemma extract_chunks_trace req target (chunks : list text) :
  forall accumulated (st : state),
  exists evs,
    trace (snd (extract_chunks env req target chunks accumulated st))
    = trace st ++ evs
    /\ fetches evs = [].
Proof.
  induction chunks as [|chunk rest IH]; intros accumulated st.
  - exists []. cbn. now rewrite app_nil_r.
  - rewrite extract_chunks_cons.
    destruct (call_openai_extract_trace env chunk (query req)
                (text_or (model (llm req)) (DEFAULT_MODEL env))
                (temperature (llm req)) (json_mode (llm req)) st)
      as (chats & Htrace & _ & Hnofetch).
    fold (extract_chunk env req chunk) in Htrace.
    destruct (extract_chunk env req chunk st) as [new_rows st1].
    cbn [snd] in Htrace. cbv zeta.
    destruct (len (accumulate accumulated new_rows) >=? target).
    + exists (Extract chunk :: chats). cbn [snd fetches]. now split.
    + destruct (IH (accumulate accumulated new_rows) st1)
        as (evs & Hevs & Hnone).
      exists ((Extract chunk :: chats) ++ evs). rewrite Hevs, Htrace.
      split; [now rewrite <- app_assoc|].
      rewrite fetches_app. cbn [fetches]. now rewrite Hnofetch, Hnone.
Qed.

Lemma extract_url_trace req target u (st : state) :
  exists evs,
    trace (snd (extract_url env req target u st))
    = trace st ++ Fetch u :: evs
    /\ fetches evs = [].
Proof.
  rewrite extract_url_unfold.
  destruct (truthy_html _) as [page|].
  - destruct (extract_chunks_trace req target (page_chunks env req page) []
                (fetched_state env u st)) as (evs & Hevs & Hnone).
    destruct (extract_chunks _ _ _ _ _ _) as [accumulated st'].
    cbn [snd] in *. exists evs. rewrite Hevs. unfold fetched_state.
    cbn [trace]. split; [now rewrite <- app_assoc|exact Hnone].
  - exists []. now split.
Qed.

(** X18.  The URLs of a request are processed one after the other: the
    trace of the run is, URL by URL in the order of the request, the fetch
    of the URL followed by the extraction calls and completion requests
    made for it, and nothing is fetched in between. *)
Theorem urls_processed_in_turn req target (us : list text) :
  forall (st : state),
  exists segments : list (list event),
    length segments = length us
    /\ trace (snd (extract_urls env req target us [] st))
       = trace st ++ url_segments us segments
    /\ Forall (fun evs => fetches evs = []) segments.
Proof.
  induction us as [|u rest IH]; intros st.
  - exists []. cbn. rewrite app_nil_r. now repeat split.
  - rewrite extract_urls_cons.
    destruct (extract_url_trace req target u st) as (evs & Hevs & Hnone).
    destruct (extract_url env req target u st) as [page st1].
    cbn [snd] in Hevs. rewrite extract_urls_results. cbn [snd].
    destruct (IH st1) as (segments & Hlen & Htrace & Hall).
    exists (evs :: segments). split; [cbn [length]; lia|]. split.
    + rewrite Htrace, Hevs. unfold url_segments.
      cbn [combine map concat fst snd]. now rewrite <- app_assoc.
    + now constructor.
Qed.

End TurnFacts.

(** ** [fetch_url] *)

Module FetcherFacts.
Import Patterns PatternFacts.

Lemma starts_with_ignorecase_split (p : text) : forall s rest,
  starts_with_ignorecase p s = Some rest ->
  exists m, s = m ++ rest /\ starts_with_ignorecase p m = Some [].
Proof.
  induction p as [|a p IH]; intros [|b s] rest;
    cbn [starts_with_ignorecase]; try discriminate.
  - intros [= <-]. now exists [].
  - intros [= <-]. now exists [].
  - destruct (ignorecase_eq a b) eqn:E; [|discriminate].
    intros H. destruct (IH s rest H) as (m & -> & Hm).
    exists (b :: m). split; [reflexivity|].
    cbn [starts_with_ignorecase]. now rewrite E.
Qed.

Lemma starts_with_ignorecase_extend (p : text) : forall m b,
  starts_with_ignorecase p m = Some [] ->
  starts_with_ignorecase p (m ++ b) = Some b.
Proof.
  induction p as [|a p IH]; intros [|x m] b;
    cbn [starts_with_ignorecase app]; try discriminate.
  - intros _. now destruct b.
  - destruct (ignorecase_eq a x); [|discriminate]. apply IH.
Qed.

Lemma starts_with_ignorecase_length (p : text) : forall m,
  starts_with_ignorecase p m = Some [] -> length m = length p.
Proof.
  intros m H. apply starts_with_ignorecase_app in H as (p' & -> & Hlen).
  now rewrite app_nil_r.
Qed.

Lemma find_sub_ignorecase_sound (p : text) (s : text) : forall before rest,
  find_sub_ignorecase p s = Some (before, rest) ->
  exists m, s = before ++ m ++ rest
            /\ starts_with_ignorecase p m = Some [].
Proof.
  induction s as [|c s IH]; intros before rest; cbn [find_sub_ignorecase].
  - destruct (starts_with_ignorecase p []) eqn:E; [|discriminate].
    intros [= <- <-]. now apply starts_with_ignorecase_split in E.
  - destruct (starts_with_ignorecase p (c :: s)) eqn:E.
    + intros [= <- <-]. now apply starts_with_ignorecase_split in E.
    + destruct (find_sub_ignorecase p s) as [[b r]|] eqn:Ef; [|discriminate].
      intros [= <- <-]. destruct (IH b r eq_refl) as (m & -> & Hm).
      now exists m.
Qed.

(** An occurrence is found, at the first place there is one. *)
Lemma find_sub_ignorecase_complete (p : text) (a : text) : forall m b,
  starts_with_ignorecase p m = Some [] ->
  exists before rest,
    find_sub_ignorecase p (a ++ m ++ b) = Some (before, rest)
    /\ (length before <= length a)%nat.
Proof.
  induction a as [|c a IH]; intros m b Hm.
  - cbn [app]. exists [], b. split; [|reflexivity].
    pose proof (starts_with_ignorecase_extend p m b Hm) as H.
    destruct (m ++ b); cbn [find_sub_ignorecase]; now rewrite H.
  - cbn [app find_sub_ignorecase].
    destruct (starts_with_ignorecase p (c :: a ++ m ++ b)) as [r|].
    + exists [], r. split; [reflexivity|cbn [length]; lia].
    + destruct (IH m b Hm) as (before & rest & -> & Hle).
      exists (c :: before), rest. split; [reflexivity|cbn [length]; lia].
Qed.

Lemma occurs_ignorecase_found (p s : text) :
  occurs_ignorecase p s <-> find_sub_ignorecase p s <> None.
Proof.
  split.
  - intros (a & m & b & -> & Hm).
    destruct (find_sub_ignorecase_complete p a m b Hm)
      as (before & rest & -> & _). discriminate.
  - destruct (find_sub_ignorecase p s) as [[before rest]|] eqn:E;
      [|congruence].
    intros _. apply find_sub_ignorecase_sound in E as (m & -> & Hm).
    now exists before, m, rest.
Qed.

Lemma occurs_ignorecase_later (p x s : text) :
  occurs_ignorecase p s -> occurs_ignorecase p (x ++ s).
Proof.
  intros (a & m & b & -> & Hm). exists (x ++ a), m, b.
  now rewrite <- app_assoc.
Qed.

(** Two splits of a text: the one that starts earlier ends with more. *)
Lemma later_suffix {A : Type} (a1 m1 r1 a2 m2 r2 : list A) :
  a1 ++ m1 ++ r1 = a2 ++ m2 ++ r2 ->
  (length a1 <= length a2)%nat -> length m1 = length m2 ->
  exists x, r1 = x ++ r2.
Proof.
  intros Heq Hle Hm.
  assert (Hlen : (length r2 <= length r1)%nat).
  { apply (f_equal (@length _)) in Heq. rewrite !length_app in Heq. lia. }
  exists (firstn (length r1 - length r2) r1).
  rewrite <- (firstn_skipn (length r1 - length r2) r1) at 1. f_equal.
  assert (H1 : skipn (length (a1 ++ m1)) (a1 ++ m1 ++ r1) = r1).
  { now rewrite app_assoc, skipn_app, Nat.sub_diag, skipn_all. }
  assert (H2 : skipn (length (a2 ++ m2)) (a1 ++ m1 ++ r1) = r2).
  { now rewrite Heq, app_assoc, skipn_app, Nat.sub_diag, skipn_all. }
  transitivity (skipn (length r1 - length r2)
                      (skipn (length (a1 ++ m1)) (a1 ++ m1 ++ r1)));
    [now rewrite H1|].
  rewrite skipn_skipn.
  transitivity (skipn (length (a2 ++ m2)) (a1 ++ m1 ++ r1)); [|exact H2].
  f_equal. apply (f_equal (@length _)) in Heq.
  rewrite !length_app in *. lia.
Qed.

(** X19.  The title pattern finds a title exactly when the page holds
    [<title>], in any letter case, followed somewhere later by
    [</title>]; the title found is the text between an opening tag and a
    closing tag of the page. *)
Theorem title_match_found (page : text) :
  (title_match page <> None
   <-> exists before o rest,
         page = before ++ o ++ rest
         /\ starts_with_ignorecase (str "<title>") o = Some []
         /\ occurs_ignorecase (str "</title>") rest)
  /\ (forall group,
        title_match page = Some group ->
        exists before o c after,
          page = before ++ o ++ group ++ c ++ after
          /\ starts_with_ignorecase (str "<title>") o = Some []
          /\ starts_with_ignorecase (str "</title>") c = Some []).
Proof.
  unfold title_match. split; [split|].
  - destruct (find_sub_ignorecase (str "<title>") page)
      as [[before after]|] eqn:Eo; [|congruence].
    destruct (find_sub_ignorecase (str "</title>") after)
      as [[group rest]|] eqn:Ec; [|congruence].
    intros _. apply find_sub_ignorecase_sound in Eo as (o & -> & Ho).
    exists before, o, after. split; [reflexivity|]. split; [exact Ho|].
    apply occurs_ignorecase_found. congruence.
  - intros (before & o & rest & -> & Ho & Hclose).
    destruct (find_sub_ignorecase_complete (str "<title>") before o rest Ho)
      as (before0 & after0 & Hfind & Hle).
    rewrite Hfind.
    pose proof (find_sub_ignorecase_sound _ _ _ _ Hfind) as (o0 & Heq & Ho0).
    destruct (later_suffix before0 o0 after0 before o rest) as (x & ->).
    + now symmetry.
    + exact Hle.
    + rewrite (starts_with_ignorecase_length _ _ Ho),
        (starts_with_ignorecase_length _ _ Ho0). reflexivity.
    + apply (occurs_ignorecase_later _ x), occurs_ignorecase_found in Hclose.
      destruct (find_sub_ignorecase (str "</title>") (x ++ rest))
        as [[group r]|]; congruence.
  - intros group.
    destruct (find_sub_ignorecase (str "<title>") page)
      as [[before after]|] eqn:Eo; [|discriminate].
    destruct (find_sub_ignorecase (str "</title>") after)
      as [[g rest]|] eqn:Ec; [|discriminate].
    intros [= <-].
    apply find_sub_ignorecase_sound in Eo as (o & -> & Ho).
    apply find_sub_ignorecase_sound in Ec as (c & -> & Hc).
    now exists before, o, c, rest.
Qed.

End FetcherFacts.

Lemma title_match_found_witness :
  title_match titled_page = Some (str " Widget list ")
  /\ exists before o c after,
       titled_page = before ++ o ++ str " Widget list " ++ c ++ after
       /\ Patterns.starts_with_ignorecase (str "<title>") o = Some []
       /\ Patterns.starts_with_ignorecase (str "</title>") c = Some [].
Proof.
  assert (H : title_match titled_page = Some (str " Widget list "))
    by reflexivity.
  split; [exact H|].
  exact (proj2 (FetcherFacts.title_match_found titled_page) _ H).
Defined.

Section StripFacts.
Import Patterns.

Lemma drop_while_head (p : char -> bool) (s : text) (c : char) (r : text) :
  drop_while p s = c :: r -> p c = false.
Proof.
  induction s as [|x s IH]; cbn [drop_while]; [discriminate|].
  destruct (p x) eqn:E; [exact IH|]. intros [= <- _]. exact E.
Qed.

Lemma drop_while_suffix (p : char -> bool) (s : text) :
  exists dropped, s = dropped ++ drop_while p s.
Proof.
  destruct (PatternFacts.drop_while_app p s) as (d & Hd & _). now exists d.
Qed.

(** A stripped text neither starts nor ends with white space. *)
Lemma strip_ends (s : text) :
  (forall c r, strip s = c :: r -> is_space c = false)
  /\ (forall r c, strip s = r ++ [c] -> is_space c = false).
Proof.
  unfold strip.
  set (x := drop_while is_space s).
  set (y := drop_while is_space (rev x)).
  destruct (drop_while_suffix is_space (rev x)) as (d & Hd). fold y in Hd.
  assert (Hx : x = rev y ++ rev d).
  { rewrite <- (rev_involutive x), Hd, rev_app_distr. reflexivity. }
  split.
  - intros c r Hy.
    apply (drop_while_head is_space s c (r ++ rev d)).
    fold x. rewrite Hx, Hy. reflexivity.
  - intros r c Hy.
    apply (drop_while_head is_space (rev x) c (rev r)). fold y.
    rewrite <- (rev_involutive y), Hy, rev_app_distr. reflexivity.
Qed.

End StripFacts.

Section FetchFacts.
Context {World : Type}.
Variable http_get : text -> World -> result text * World.
Variable soup_get_text : text -> result text.
Variable exn_message : exn -> text.

(** X20.  [fetch_url] asks the HTTP client once and always answers with
    its dict.  The dict has a page exactly when it has no error, and then
    the page is the body the client returned; a failed client, but also a
    title the HTML parser cannot read, leaves neither page nor title.  A
    title, when there is one, neither starts nor ends with white space. *)
Theorem fetch_url_outcome (u : text) (w : World) :
  let out := Fetcher.fetch_url http_get soup_get_text exn_message u w in
  let d := fst out in
  snd out = snd (http_get u w)
  /\ (dict_html d = None <-> dict_error d <> None)
  /\ (dict_html d = None -> dict_title d = None)
  /\ (forall page, dict_html d = Some page -> fst (http_get u w) = Ok page)
  /\ (forall page group e,
        fst (http_get u w) = Ok page ->
        title_match page = Some group ->
        soup_get_text group = Raise e ->
        dict_html d = None)
  /\ (forall t, dict_title d = Some t ->
                (forall c r, t = c :: r -> Patterns.is_space c = false)
                /\ (forall r c, t = r ++ [c] -> Patterns.is_space c = false)).
Proof.
  intros out d. subst d out. unfold Fetcher.fetch_url.
  destruct (http_get u w) as [[page|e] w']; cbn [fst snd].
  2: { cbn. repeat split; try congruence; try discriminate. }
  destruct (title_match page) as [group|] eqn:Etitle.
  2: { cbn. repeat split; try congruence; try discriminate. }
  destruct (soup_get_text group) as [t|e] eqn:Esoup.
  - cbn. split; [reflexivity|]. split; [split; congruence|].
    split; [congruence|]. split; [congruence|]. split; [congruence|].
    intros t' [= <-]. apply strip_ends.
  - cbn. repeat split; try congruence; try discriminate.
Qed.

End FetchFacts.

Lemma fetch_url_outcome_witness :
  let d := fst (Fetcher.fetch_url scripted_get scripted_soup scripted_message
                                  Scripted.up 0%nat) in
  dict_html d = Some titled_page
  /\ dict_title d = Some (str "Widget list")
  /\ fst (scripted_get Scripted.up 0%nat) = Ok titled_page
  /\ (forall c r, str "Widget list" = c :: r -> Patterns.is_space c = false).
Proof.
  intros d.
  destruct (fetch_url_outcome scripted_get scripted_soup scripted_message
              Scripted.up 0%nat) as (_ & _ & _ & Hpage & _ & Htitle).
  assert (Hh : dict_html d = Some titled_page) by reflexivity.
  assert (Ht : dict_title d = Some (str "Widget list")) by reflexivity.
  split; [exact Hh|]. split; [exact Ht|].
  split; [exact (Hpage _ Hh)|exact (proj1 (Htitle _ Ht))].
Defined.

Section FetchInExtract.
Context {F : PyFloat} {World : Type}.
Variable env : Collaborators World.
Variable http_get : text -> World -> result text * World.
Variable soup_get_text : text -> result text.
Variable exn_message : exn -> text.
Hypothesis Hfetch : fetches_with env http_get soup_get_text exn_message.

(** X21.  In a deployment that fetches with [fetch_url], a URL whose
    request fails, and also a URL whose page arrived but whose title the
    HTML parser cannot read, gets a PageResult without title and without
    rows: the page is dropped and no extraction call is made for it. *)
Theorem unreadable_title_drops_page req target u (st : state) :
  ((exists e, fst (http_get u (world st)) = Raise e)
   \/ (exists page group e,
         fst (http_get u (world st)) = Ok page
         /\ title_match page = Some group
         /\ soup_get_text group = Raise e)) ->
  extract_url env req target u st
  = ({| url := u; title := None; rows := []; page_schema := None |},
     {| world := snd (http_get u (world st));
        trace := trace st ++ [Fetch u] |})
  /\ extraction_calls (trace (snd (extract_url env req target u st)))
     = extraction_calls (trace st).
Proof.
  intros Hfail.
  assert (Hdict : fetch_url env u (world st)
                  = ({| html := None; fetched_title := None |},
                     snd (http_get u (world st)))).
  { rewrite Hfetch. unfold Fetcher.fetch_url.
    destruct (http_get u (world st)) as [[page|e] w']; cbn [fst snd] in *.
    - destruct Hfail as [(e & He)|(p & group & e & Hp & Htitle & Hsoup)];
        [discriminate|].
      injection Hp as <-. rewrite Htitle, Hsoup. reflexivity.
    - reflexivity. }
  assert (Hurl : extract_url env req target u st
                 = ({| url := u; title := None; rows := [];
                       page_schema := None |},
                    {| world := snd (http_get u (world st));
                       trace := trace st ++ [Fetch u] |})).
  { rewrite extract_url_unfold. unfold empty_page, fetched_state.
    now rewrite Hdict. }
  split; [exact Hurl|].
  rewrite Hurl. cbn [snd trace]. rewrite extraction_calls_app.
  cbn [extraction_calls]. apply app_nil_r.
Qed.

End FetchInExtract.

Lemma unreadable_title_drops_page_witness :
  let req := Scripted.request [Scripted.long] 25 (str "openai") in
  fst (scripted_get Scripted.long (world Scripted.start)) = Ok ampersand_page
  /\ title_match ampersand_page = Some (str "Widgets &amp; more")
  /\ extract_url fetching_env req 25 Scripted.long Scripted.start
     = ({| url := Scripted.long; title := None; rows := [];
           page_schema := None |},
        {| world := snd (scripted_get Scripted.long (world Scripted.start));
           trace := trace Scripted.start ++ [Fetch Scripted.long] |}).
Proof.
  intro req.
  split; [reflexivity|]. split; [reflexivity|].
  apply (unreadable_title_drops_page fetching_env scripted_get scripted_soup
           scripted_message).
  - intros u w. reflexivity.
  - right. exists ampersand_page, (str "Widgets &amp; more"),
      (OtherError "ParserRejectedMarkup").
    repeat split; reflexivity.
Defined.

(** ** [clean_html_to_text] *)

Module CleanerFacts.
Import Patterns Cleaner.

Lemma is_space_newline : is_space newline = true.
Proof. reflexivity. Qed.

Lemma collapse_skip (s : text) : forall n,
  collapse s n = collapse (skipn n s) 0.
Proof.
  induction s as [|c r IH]; intros [|n]; cbn [skipn]; try reflexivity.
  cbn [collapse]. apply IH.
Qed.

(** Without a line feed in the white space ahead, the next character is no
    line feed. *)
Lemma blank_run_none (r : text) :
  blank_run r = None -> newline_run r = 0%nat.
Proof.
  destruct r as [|c r]; [reflexivity|]. cbn [blank_run newline_run].
  destruct (N.eqb_spec c newline) as [->|]; [|reflexivity].
  rewrite is_space_newline. now destruct (blank_run r).
Qed.

(** A match ends at the last line feed of the white space: it holds white
    space only, and no line feed follows it directly. *)
Lemma blank_run_some (r : text) : forall n,
  blank_run r = Some n ->
  (1 <= n <= length r)%nat
  /\ forallb is_space (firstn n r) = true
  /\ newline_run (skipn n r) = 0%nat.
Proof.
  induction r as [|c r IH]; intros n; cbn [blank_run]; [discriminate|].
  destruct (is_space c) eqn:Ec; [|discriminate].
  destruct (blank_run r) as [m|] eqn:Er.
  - intros [= <-]. destruct (IH m eq_refl) as ((H1 & H2) & Hall & Hrun).
    cbn [length firstn skipn forallb]. rewrite Ec, Hall.
    repeat split; try lia; assumption.
  - destruct (c =? newline)%N; [|discriminate]. intros [= <-].
    cbn [length firstn skipn forallb]. rewrite Ec.
    repeat split; try lia. now apply blank_run_none.
Qed.

Lemma collapse_head_run (s : text) :
  newline_run s = 0%nat -> newline_run (collapse s 0) = 0%nat.
Proof.
  destruct s as [|c r]; [reflexivity|]. cbn [newline_run collapse].
  destruct (c =? newline)%N eqn:E; [discriminate|].
  intros _. cbn [newline_run]. now rewrite E.
Qed.

Lemma collapse_calm_bounded (n : nat) : forall s,
  (length s <= n)%nat -> calm (collapse s 0).
Proof.
  induction n as [|n IH]; intros [|c r] Hlen; cbn [length] in Hlen;
    try exact I; [lia|].
  cbn [collapse]. destruct (N.eqb_spec c newline) as [->|Hc].
  - destruct (blank_run r) as [m|] eqn:Er.
    + destruct (blank_run_some r m Er) as ((H1 & H2) & _ & Hrun).
      rewrite collapse_skip.
      pose proof (collapse_head_run _ Hrun) as Hhead.
      assert (Hrest : calm (collapse (skipn m r) 0)).
      { apply IH. rewrite length_skipn. lia. }
      cbn [calm newline_run]. rewrite N.eqb_refl, Hhead.
      repeat split; try lia; assumption.
    + pose proof (collapse_head_run _ (blank_run_none r Er)) as Hhead.
      cbn [calm newline_run]. rewrite N.eqb_refl, Hhead.
      split; [lia|]. apply IH. lia.
  - cbn [calm newline_run].
    destruct (N.eqb_spec c newline); [contradiction|].
    split; [lia|]. apply IH. lia.
Qed.

Lemma calm_suffix (a : text) : forall s, calm (a ++ s) -> calm s.
Proof.
  induction a as [|c a IH]; intros s; cbn [app calm]; [trivial|].
  intros [_ H]. now apply IH.
Qed.

Lemma calm_no_triple (s a b : text) :
  calm s -> s <> a ++ [newline; newline; newline] ++ b.
Proof.
  intros Hcalm ->. apply calm_suffix in Hcalm.
  cbn [app calm newline_run] in Hcalm. rewrite N.eqb_refl in Hcalm.
  destruct Hcalm as [H _]. lia.
Qed.

(** Stripping cuts white space off both ends and nothing else. *)
Lemma strip_infix (s : text) :
  exists a b, s = a ++ strip s ++ b
              /\ forallb is_space a = true /\ forallb is_space b = true.
Proof.
  assert (Hdrop : forall t, exists d,
             t = d ++ drop_while is_space t /\ forallb is_space d = true).
  { induction t as [|c t (d & Hd & Hall)]; cbn [drop_while].
    - now exists [].
    - destruct (is_space c) eqn:Ec.
      + exists (c :: d). cbn [app forallb]. rewrite Ec, Hall.
        split; [now f_equal|reflexivity].
      + now exists []. }
  unfold strip. destruct (Hdrop s) as (a & Ha & Halla).
  set (x := drop_while is_space s) in *.
  destruct (Hdrop (rev x)) as (d & Hd & Halld).
  set (y := drop_while is_space (rev x)) in *.
  exists a, (rev d). split; [|split].
  - rewrite Ha at 1. f_equal.
    rewrite <- (rev_involutive x), Hd, rev_app_distr. reflexivity.
  - exact Halla.
  - rewrite forallb_forall in *. intros c Hin. apply Halld.
    now apply in_rev.
Qed.

Lemma inked_app (a b : text) : inked (a ++ b) = inked a ++ inked b.
Proof. apply filter_app. Qed.

Lemma inked_blank (a : text) : forallb is_space a = true -> inked a = [].
Proof.
  induction a as [|c a IH]; cbn [forallb inked filter]; [reflexivity|].
  intros H. apply andb_true_iff in H as [Hc Ha]. rewrite Hc. cbn [negb].
  now apply IH.
Qed.

Lemma collapse_inked_bounded (n : nat) : forall s,
  (length s <= n)%nat -> inked (collapse s 0) = inked s.
Proof.
  induction n as [|n IH]; intros [|c r] Hlen; cbn [length] in Hlen;
    try reflexivity; [lia|].
  cbn [collapse].
  assert (Hcopy : inked (c :: collapse r 0) = inked (c :: r)).
  { unfold inked. cbn [filter]. fold (inked (collapse r 0)) (inked r).
    rewrite (IH r) by lia. reflexivity. }
  destruct (N.eqb_spec c newline) as [->|Hc]; [|exact Hcopy].
  destruct (blank_run r) as [m|] eqn:Er; [|exact Hcopy].
  destruct (blank_run_some r m Er) as ((H1 & H2) & Hall & _).
  rewrite collapse_skip.
  change (inked (newline :: newline :: collapse (skipn m r) 0))
    with (inked (collapse (skipn m r) 0)).
  rewrite IH by (rewrite length_skipn; lia).
  change (inked (newline :: r)) with (inked r).
  rewrite <- (firstn_skipn m r) at 2.
  now rewrite inked_app, (inked_blank _ Hall).
Qed.

Section CleanFacts.
Variable soup_text : text -> text.

(** X22.  The cleaned text neither starts nor ends with white space and
    never has more than two line feeds in a row. *)
Theorem clean_html_to_text_shape (page : text) :
  let out := clean_html_to_text soup_text page in
  (forall c r, out = c :: r -> is_space c = false)
  /\ (forall r c, out = r ++ [c] -> is_space c = false)
  /\ (forall a b, out <> a ++ [newline; newline; newline] ++ b).
Proof.
  intros out. subst out. unfold clean_html_to_text.
  split; [apply strip_ends|]. split; [apply strip_ends|].
  intros a b Heq.
  destruct (strip_infix (collapse (soup_text page) 0)) as (x & y & Hs & _).
  rewrite Heq in Hs.
  apply (calm_no_triple (collapse (soup_text page) 0) (x ++ a) (b ++ y)).
  - apply (collapse_calm_bounded (length (soup_text page))). lia.
  - rewrite Hs at 1. now rewrite <- !app_assoc.
Qed.

(** X23.  Cleaning after the HTML parser only touches white space: the
    characters that are not white space are those of the parser's text, in
    the same order. *)
Theorem clean_html_to_text_keeps_ink (page : text) :
  inked (clean_html_to_text soup_text page) = inked (soup_text page).
Proof.
  unfold clean_html_to_text.
  destruct (strip_infix (collapse (soup_text page) 0))
    as (a & b & Hs & Ha & Hb).
  rewrite <- (collapse_inked_bounded (length (soup_text page))
                                     (soup_text page)) by lia.
  rewrite Hs at 2.
  rewrite !inked_app, (inked_blank _ Ha), (inked_blank _ Hb).
  now rewrite app_nil_r.
Qed.

End CleanFacts.

Lemma clean_html_to_text_shape_witness :
  let out := clean_html_to_text (fun page => page)
               (str "  a" ++ [newline; newline; newline] ++ str "b ") in
  out = str "a" ++ [newline; newline] ++ str "b"
  /\ (forall c r, out = c :: r -> is_space c = false).
Proof.
  intro out. split; [reflexivity|].
  apply (clean_html_to_text_shape (fun page => page)).
Defined.

End CleanerFacts.

Lemma candidates_in_order_witness :
  In (str "[1]") (extract_json_candidates Samples.mixed)
  /\ exists pre post, Samples.mixed = pre ++ str "[1]" ++ post.
Proof.
  assert (H : In (str "[1]") (extract_json_candidates Samples.mixed))
    by (vm_compute; tauto).
  split; [exact H|].
  exact (proj2 (proj2 (proj2 (PatternFacts.candidates_in_order Samples.mixed)))
               _ H).
Defined.

Lemma dedupe_rows_incremental_witness :
  let a := [Samples.row_ab; Samples.row_ba] in
  let b := [Samples.row_a1 (F := lexeme_float); Samples.row_ab] in
  dedupe_rows (dedupe_rows a ++ b) = dedupe_rows (a ++ b)
  /\ exists added,
       dedupe_rows (a ++ b) = dedupe_rows a ++ added
       /\ forall r, In r added -> In r b.
Proof.
  intros a b.
  destruct (dedupe_rows_incremental a b) as (Hsame & Hadded & _).
  split; [exact Hsame|exact Hadded].
Defined.

(** ** ResultParser: the fenced candidates *)

Module FenceFacts.
Import Patterns PatternFacts.

Lemma starts_with_prefix (p : text) : forall x, starts_with p (p ++ x) = Some x.
Proof.
  induction p as [|a p IH]; intros x; cbn [app starts_with].
  - now destruct x.
  - now rewrite N.eqb_refl.
Qed.

(** The text before the first occurrence of [p] holds no occurrence of
    [p]. *)
Lemma find_sub_before (p : text) (s : text) : forall before rest,
  p <> [] ->
  find_sub p s = Some (before, rest) ->
  forall a b, before <> a ++ p ++ b.
Proof.
  induction s as [|c s IH]; intros before rest Hp; cbn [find_sub].
  - destruct (starts_with p []) eqn:E; [|discriminate].
    intros [= <- <-] a b Heq. symmetry in Heq.
    apply app_eq_nil in Heq as [_ Heq]. apply app_eq_nil in Heq as [Heq _].
    contradiction.
  - destruct (starts_with p (c :: s)) eqn:E.
    + intros [= <- <-] a b Heq. symmetry in Heq.
      apply app_eq_nil in Heq as [_ Heq]. apply app_eq_nil in Heq as [Heq _].
      contradiction.
    + destruct (find_sub p s) as [[b0 r]|] eqn:Ef; [|discriminate].
      intros [= <- <-] a b Heq.
      pose proof (find_sub_app _ _ _ _ Ef) as Hs.
      destruct a as [|x a]; cbn [app] in Heq.
      * assert (Hstart : starts_with p (c :: s) = Some (b ++ p ++ r)).
        { replace (c :: s) with (p ++ b ++ p ++ r);
            [apply starts_with_prefix|].
          rewrite Hs, app_comm_cons, Heq. now rewrite <- !app_assoc. }
        congruence.
      * injection Heq as <- Heq. now apply (IH b0 r Hp eq_refl a b).
Qed.

Lemma fence_at_shape (s found : text) (span : nat) :
  fence_at s = Some (found, span) ->
  (forall a b, found <> a ++ backticks ++ b)
  /\ (forall c r, found = c :: r -> is_space c = false).
Proof.
  unfold fence_at.
  destruct (starts_with_ignorecase (str "```json") s) as [r|]; [|discriminate].
  destruct (find_sub backticks (drop_while is_space r))
    as [[group rest]|] eqn:Ef; [|discriminate].
  intros [= <- _]. split.
  - apply (find_sub_before backticks _ _ _ ltac:(discriminate) Ef).
  - intros c r' ->.
    apply find_sub_app in Ef. cbn [app] in Ef.
    exact (drop_while_head is_space r c _ Ef).
Qed.

(** X24.  A fenced candidate is what stands between the opening fence,
    with the white space after it, and the first closing fence: it holds
    no run of three backticks and does not start with white space. *)
Theorem fenced_candidate_shape (t c : text) :
  In c (findall fence_at t 0) ->
  (forall a b, c <> a ++ backticks ++ b)
  /\ (forall x r, c = x :: r -> is_space x = false).
Proof.
  intros Hin. apply findall_In in Hin as (pre & s' & span & _ & Hm).
  apply fence_at_shape in Hm as [Hnone Hhead]. split; [exact Hnone|].
  exact Hhead.
Qed.

Lemma fenced_candidate_shape_witness :
  In (Samples.array_a1 ++ [newline])
     (findall fence_at Samples.fenced_answer 0)
  /\ forall a b, Samples.array_a1 ++ [newline] <> a ++ backticks ++ b.
Proof.
  assert (H : In (Samples.array_a1 ++ [newline])
                 (findall fence_at Samples.fenced_answer 0))
    by (now left).
  split; [exact H|].
  exact (proj1 (fenced_candidate_shape Samples.fenced_answer _ H)).
Defined.

End FenceFacts.

(** ** ExtractionOrchestrator: what the handler reads *)

Section ReadingFacts.
Context {F : PyFloat} {World : Type}.
Variable env : Collaborators World.

Lemma extract_chunks_reading r1 r2 target (chunks : list text) :
  same_reading r1 r2 ->
  forall accumulated (st : state),
    extract_chunks env r1 target chunks accumulated st
    = extract_chunks env r2 target chunks accumulated st.
Proof.
  intros (_ & Hq & _ & _ & Hllm).
  induction chunks as [|chunk rest IH]; intros accumulated st;
    [reflexivity|].
  rewrite !extract_chunks_cons. unfold extract_chunk. rewrite Hq, Hllm.
  destruct (call_openai_extract _ _ _ _ _ _ _) as [new_rows st1]. cbv zeta.
  now rewrite IH.
Qed.

Lemma extract_urls_reading r1 r2 target (us : list text) :
  same_reading r1 r2 ->
  forall results (st : state),
    extract_urls env r1 target us results st
    = extract_urls env r2 target us results st.
Proof.
  intros Hsame. induction us as [|u rest IH]; intros results st;
    [reflexivity|].
  rewrite !extract_urls_cons, !extract_url_unfold.
  destruct (truthy_html _) as [page|]; [|apply IH].
  unfold page_chunks.
  pose proof Hsame as (_ & _ & _ & Hc & _). rewrite Hc.
  rewrite (extract_chunks_reading r1 r2 target _ Hsame).
  destruct (extract_chunks _ _ _ _ _ _) as [accumulated st']. apply IH.
Qed.

Lemma extract_urls_no_schema req target (us : list text) :
  forall (st : state),
    Forall (fun page => page_schema page = None)
           (fst (extract_urls env req target us [] st)).
Proof.
  induction us as [|u rest IH]; intros st; [constructor|].
  rewrite extract_urls_cons, extract_url_unfold.
  destruct (truthy_html _) as [page|].
  - destruct (extract_chunks _ _ _ _ _ _) as [accumulated st'].
    rewrite extract_urls_results. cbn [fst app].
    constructor; [reflexivity|apply IH].
  - rewrite extract_urls_results. cbn [fst app].
    constructor; [reflexivity|apply IH].
Qed.

(** X25.  The handler reads the URLs, the query, the target, the chunking
    and the model options of a request and nothing else: two requests that
    agree on these get the same response and leave the same state,
    whatever their strategy, schema and filters are.  No PageResult of a
    response carries a schema. *)
Theorem unread_fields_have_no_effect (r1 r2 : ExtractRequest) (st : state) :
  (same_reading r1 r2 -> extract env r1 st = extract env r2 st)
  /\ (forall page, In page (results (fst (extract env r1 st))) ->
                   page_schema page = None).
Proof.
  split.
  - intros Hsame. pose proof Hsame as (Hu & _ & Ht & _ & Hl).
    unfold extract. rewrite Hu, Hl, Ht.
    destruct (negb (truthy (urls r2))); [reflexivity|].
    destruct (negb (text_eqb _ _)); [reflexivity|].
    destruct (negb (truthy (OPENAI_API_KEY env))); [reflexivity|].
    unfold mbind. now rewrite (extract_urls_reading r1 r2 _ _ Hsame).
  - intros page. unfold extract.
    destruct (negb (truthy (urls r1))); [intros []|].
    destruct (negb (text_eqb _ _)); [intros []|].
    destruct (negb (truthy (OPENAI_API_KEY env))); [intros []|].
    unfold mbind, ret.
    pose proof (extract_urls_no_schema r1
                  (per_url_target (target_rows r1) (len (urls r1)))
                  (urls r1) st) as Hall.
    destruct (extract_urls _ _ _ _ _ _) as [pages st']. cbn [fst results] in *.
    rewrite Forall_forall in Hall. apply Hall.
Qed.

End ReadingFacts.

Lemma unread_fields_have_no_effect_witness :
  let r1 := Scripted.request [Scripted.down; Scripted.up] 10 (str "openai") in
  let r2 := {| urls := urls r1; query := query r1;
               target_rows := target_rows r1;
               strategy := None;
               req_schema := Some [Samples.row_a1];
               chunking := chunking r1; llm := llm r1;
               filters := Some Samples.row_ab |} in
  same_reading r1 r2
  /\ extract Scripted.env r1 Scripted.start
     = extract Scripted.env r2 Scripted.start.
Proof.
  intros r1 r2.
  assert (H : same_reading r1 r2) by (repeat split).
  split; [exact H|].
  exact (proj1 (unread_fields_have_no_effect Scripted.env r1 r2 Scripted.start)
               H).
Defined.
